(** * EFFE event hub: channels, subscriptions, wildcard fan-out

    A shallow embedding of [event-hub.ts] (classes [Channel] and [EventHub])
    and the properties of its publish/subscribe engine.

    Modelling conventions.
    - A payload ([TData]) is a JavaScript value, [JsValue], with the
      language's truthiness; [undefined] is one of the values, exactly as in
      [_lastEvent: TData|undefined].
    - A callback is a JavaScript function: it has an identity ([cb_ref]) and,
      when called with an envelope, either returns or throws.  Callbacks do
      not call back into the hub while they run.
    - Every call of a callback is appended to a log of [Invocation]s, which
      is how "was invoked", "exactly once" and "in this order" are stated.
    - A method is a computation in [Eff St]: it reads and writes the object
      ([this : St]), extends the log, and completes normally or by a throw,
      in which case the rest of the method body does not run.
    - [_callbacks] is an object with integer keys: [Object.values] lists its
      values by ascending key.  [_channels] is a plain object with string
      keys: reading [_channels[name]] finds the hub's own entry or else, for
      the names of [Object.prototype], the property every object inherits.
    - [_lastId] is a number that only ever grows by one; it is modelled as a
      natural number (the exact-integer range of a double is never left). *)

From stdpp Require Import base strings list sorting gmap fin_maps.

Open Scope string_scope.
Open Scope list_scope.

(** ** Values, envelopes, callbacks *)

Inductive JsValue : Type :=
  | JsUndefined
  | JsNull
  | JsBool (b : bool)
  | JsNumber (n : Z)
  | JsString (s : string)
  | JsObject (ref : nat).

#[global] Instance JsValue_eq_dec : EqDecision JsValue.
Proof. solve_decision. Defined.

(** [if (x)] on a value: what JavaScript's ToBoolean gives. *)
Definition truthy (x : JsValue) : bool :=
  match x with
  | JsUndefined | JsNull => false
  | JsBool b => b
  | JsNumber n => negb (n =? 0)%Z
  | JsString s => negb (String.eqb s "")
  | JsObject _ => true
  end.

(** [interface EventMessage<T> { channel: string; data: T }] *)
Record EventMessage : Type := mkEventMessage {
  channel : string;
  data : JsValue
}.

#[global] Instance EventMessage_eq_dec : EqDecision EventMessage.
Proof. solve_decision. Defined.

(** How a call ends. *)
Inductive Completion (A : Type) : Type :=
  | Normal (a : A)
  | Thrown (e : JsValue).
Arguments Normal {A} a.
Arguments Thrown {A} e.

(** [type EventCallback<TData> = (data: EventMessage<TData>) => void] *)
Record EventCallback : Type := mkCallback {
  cb_ref : nat;
  cb_run : EventMessage -> Completion unit
}.

(** One call of a callback, as the log records it. *)
Record Invocation : Type := mkInvocation {
  inv_cb : nat;
  inv_msg : EventMessage
}.

#[global] Instance Invocation_eq_dec : EqDecision Invocation.
Proof. solve_decision. Defined.

(** ** Methods as computations *)

Definition Eff (St A : Type) : Type :=
  St -> Completion A * St * list Invocation.

Definition ret {St A} (a : A) : Eff St A :=
  fun s => (Normal a, s, []).

Definition bind {St A B} (m : Eff St A) (k : A -> Eff St B) : Eff St B :=
  fun s =>
    match m s with
    | (Normal a, s1, log1) =>
        match k a s1 with
        | (r, s2, log2) => (r, s2, log1 ++ log2)
        end
    | (Thrown e, s1, log1) => (Thrown e, s1, log1)
    end.

Definition gets {St A} (f : St -> A) : Eff St A :=
  fun s => (Normal (f s), s, []).

Definition modify {St} (f : St -> St) : Eff St unit :=
  fun s => (Normal tt, f s, []).

Definition throw {St A} (e : JsValue) : Eff St A :=
  fun s => (Thrown e, s, []).

(** [callback(msg)] *)
Definition invoke {St} (callback : EventCallback) (msg : EventMessage)
  : Eff St unit :=
  fun s => (cb_run callback msg, s, [mkInvocation (cb_ref callback) msg]).

Declare Scope eff_scope.
Delimit Scope eff_scope with eff.
Notation "'let*' x ':=' m 'in' k" :=
  (bind m (fun x => k))
  (at level 10, x name, m at level 100, k at level 200) : eff_scope.
Notation "m '>>' k" :=
  (bind m (fun _ => k))
  (at level 100, k at level 200, right associativity) : eff_scope.

(** [xs.forEach(f)]: in order, stopping at the first throw. *)
Fixpoint forEach {St A} (xs : list A) (f : A -> Eff St unit) : Eff St unit :=
  match xs with
  | [] => ret tt
  | x :: xs' => bind (f x) (fun _ => forEach xs' f)
  end.

Definition result {St A} (r : Completion A * St * list Invocation)
  : Completion A := r.1.1.
Definition state {St A} (r : Completion A * St * list Invocation)
  : St := r.1.2.
Definition log {St A} (r : Completion A * St * list Invocation)
  : list Invocation := r.2.

(** What shows of a call from outside: how it ended and whom it called. *)
Definition observed {St A} (r : Completion A * St * list Invocation)
  : Completion A * list Invocation := (result r, log r).

(** ** [CallbackList<TData> = Record<number, EventCallback<TData>>] *)

Abbreviation CallbackList := (list (nat * EventCallback)).

(** [obj[id] = callback]: an existing key keeps its place and gets the new
    value, a new key takes its place in ascending key order. *)
Fixpoint cl_set (id : nat) (callback : EventCallback) (l : CallbackList)
  : CallbackList :=
  match l with
  | [] => [(id, callback)]
  | (k, c) :: l' =>
      if decide (id < k) then (id, callback) :: (k, c) :: l'
      else if decide (id = k) then (id, callback) :: l'
      else (k, c) :: cl_set id callback l'
  end.

(** [delete obj[id]] *)
Fixpoint cl_delete (id : nat) (l : CallbackList) : CallbackList :=
  match l with
  | [] => []
  | (k, c) :: l' =>
      if decide (k = id) then cl_delete id l' else (k, c) :: cl_delete id l'
  end.

(** [obj[id]] *)
Fixpoint cl_get (id : nat) (l : CallbackList) : option EventCallback :=
  match l with
  | [] => None
  | (k, c) :: l' => if decide (k = id) then Some c else cl_get id l'
  end.

Definition Object_keys (l : CallbackList) : list nat := l.*1.
Definition Object_values (l : CallbackList) : list EventCallback := l.*2.

(** [interface Subscription { unsubscribe: () => void; id: number }].
    The closure [unsubscribe] captures [this] (the channel, known by its
    name) and [id]; it is run by [Channel.unsubscribe] below. *)
Record Subscription : Type := mkSubscription {
  sub_this : string;
  id : nat
}.

#[global] Instance Subscription_eq_dec : EqDecision Subscription.
Proof. solve_decision. Defined.

(** ** [class Channel<TData>] *)

Module Channel.

Record t : Type := mk {
  _name : string;
  _lastEvent : JsValue;
  _lastId : nat;
  _callbacks : CallbackList
}.

Definition set_lastEvent (x : JsValue) (c : t) : t :=
  mk (_name c) x (_lastId c) (_callbacks c).
Definition set_lastId (n : nat) (c : t) : t :=
  mk (_name c) (_lastEvent c) n (_callbacks c).
Definition set_callbacks (l : CallbackList) (c : t) : t :=
  mk (_name c) (_lastEvent c) (_lastId c) l.

(** [constructor(name)] with the field initialisers. *)
Definition new (name : string) : t :=
  mk name JsUndefined 0 [].

(** [get name()], [get lastEvent()], [get callbacks()] *)
Definition name (c : t) : string := _name c.
Definition lastEvent (c : t) : JsValue := _lastEvent c.
Definition callbacks (c : t) : CallbackList := _callbacks c.

(** [return ++this._lastId] *)
Definition getNextId : Eff t nat :=
  (modify (fun c => set_lastId (S (_lastId c)) c) >>
   gets _lastId)%eff.

(** [subscribe(callback, replay = false)] *)
Definition subscribe (callback : EventCallback) (replay : bool)
  : Eff t Subscription :=
  (let* id := getNextId in
   let* lastEvent := gets _lastEvent in
   modify (fun c => set_callbacks (cl_set id callback (_callbacks c)) c) >>
   (if replay && truthy lastEvent
    then let* this_name := gets name in
         invoke callback (mkEventMessage this_name lastEvent)
    else ret tt) >>
   let* this_name := gets name in
   ret (mkSubscription this_name id))%eff.

(** The closure returned by [subscribe]: [delete this._callbacks[id]]. *)
Definition unsubscribe (s : Subscription) : Eff t unit :=
  modify (fun c => set_callbacks (cl_delete (id s) (_callbacks c)) c).

(** [publish(data)] *)
Definition publish (data : JsValue) : Eff t unit :=
  (modify (set_lastEvent data) >>
   let* values := gets (fun c => Object_values (_callbacks c)) in
   forEach values (fun callback =>
     let* this_name := gets name in
     invoke callback (mkEventMessage this_name data)))%eff.

End Channel.

(** ** [class EventHub] *)

Definition WildCardChannel : string := "*".

(** What calling a method on [undefined], or a method that the value does
    not have, throws. *)
Definition TypeError : JsValue := JsString "TypeError".

(** The property names of [Object.prototype].  A plain object [{}] answers
    a read under one of these names with the inherited property (a
    function, or the prototype itself for ["__proto__"]) unless it has an
    entry of its own: a truthy value that is not a channel. *)
Definition Object_prototype : list string :=
  ["constructor"; "hasOwnProperty"; "isPrototypeOf"; "propertyIsEnumerable";
   "toLocaleString"; "toString"; "valueOf"; "__proto__";
   "__defineGetter__"; "__defineSetter__";
   "__lookupGetter__"; "__lookupSetter__"].

Definition inherited (name : string) : bool :=
  bool_decide (name ∈ Object_prototype).

Module EventHub.

Record t : Type := mk {
  _channels : gmap string Channel.t
}.

(** [constructor()] *)
Definition new : t :=
  mk {[ WildCardChannel := Channel.new WildCardChannel ]}.

(** [get channels()] *)
Definition channels (h : t) : gmap string Channel.t := _channels h.

(** [if (!this._channels[channel]) this._channels[channel] = new Channel(channel)]:
    the read is truthy for an entry of the hub's own and for an inherited
    property, so a channel is created only under a name that is neither. *)
Definition ensure (channel : string) : Eff t unit :=
  modify (fun h =>
    match _channels h !! channel with
    | Some _ => h
    | None =>
        if inherited channel then h
        else mk (<[channel := Channel.new channel]> (_channels h))
    end).

(** [this._channels[channel].m(...)]: the method runs on the channel object
    stored under [channel], which it updates in place.  Where the hub has
    no entry of its own the read gives [undefined] or an inherited
    property, neither of which has the method: the call throws. *)
Definition on_channel {A} (channel : string) (m : Eff Channel.t A)
  : Eff t A :=
  fun h =>
    match _channels h !! channel with
    | Some c =>
        match m c with
        | (r, c', l) => (r, mk (<[channel := c']> (_channels h)), l)
        end
    | None => throw TypeError h
    end.

(** [subscribe(channel, callback, replay = false)] *)
Definition subscribe (channel : string) (callback : EventCallback)
    (replay : bool) : Eff t Subscription :=
  (ensure channel >>
   on_channel channel (Channel.subscribe callback replay))%eff.

(** [publish(channel, data)] *)
Definition publish (channel : string) (data : JsValue) : Eff t unit :=
  (ensure channel >>
   on_channel channel (Channel.publish data) >>
   on_channel WildCardChannel (Channel.publish data) >>
   on_channel WildCardChannel (Channel.publish data))%eff.

(** [this._channels[channel].lastEvent]: the getter of the channel stored
    under [channel].  An inherited property has no [lastEvent], which reads
    as [undefined]; reading a property of [undefined] throws. *)
Definition read_lastEvent (channel : string) : Eff t JsValue :=
  fun h =>
    match _channels h !! channel with
    | Some c => (Normal (Channel.lastEvent c), h, [])
    | None =>
        if inherited channel then (Normal JsUndefined, h, [])
        else throw TypeError h
    end.

(** [lastEvent(channel)] *)
Definition lastEvent (channel : string) : Eff t JsValue :=
  (ensure channel >> read_lastEvent channel)%eff.

(** Running the closure of a handle: it acts on the channel object it
    captured, which the hub holds under that channel's name; the hub's own
    map is not consulted, so nothing happens to a hub without that channel. *)
Definition unsubscribe (s : Subscription) : Eff t unit :=
  modify (fun h =>
    match _channels h !! sub_this s with
    | Some c => mk (<[sub_this s := state (Channel.unsubscribe s c)]> (_channels h))
    | None => h
    end).

End EventHub.

(** ** Histories of calls

    A client drives a channel, or a hub, by a sequence of calls.  A call
    that throws leaves the object as the throw found it, and the client
    carries on with the next call. *)

Inductive ChannelOp : Type :=
  | CSubscribe (callback : EventCallback) (replay : bool)
  | CUnsubscribe (s : Subscription)
  | CPublish (data : JsValue).

Definition channel_step (c : Channel.t) (op : ChannelOp) : Channel.t :=
  match op with
  | CSubscribe callback replay => state (Channel.subscribe callback replay c)
  | CUnsubscribe s => state (Channel.unsubscribe s c)
  | CPublish data => state (Channel.publish data c)
  end.

Definition channel_run (ops : list ChannelOp) (c : Channel.t) : Channel.t :=
  foldl channel_step c ops.

(** The subscribe calls of a history, and the value of its last publish. *)
Definition is_subscribe (op : ChannelOp) : bool :=
  if op is CSubscribe _ _ then true else false.

Definition subscribe_count (ops : list ChannelOp) : nat :=
  length (filter (fun op => is_subscribe op) ops).

Definition last_published (ops : list ChannelOp) : option JsValue :=
  last (omap (fun op => if op is CPublish v then Some v else None) ops).

(** What the subscribe calls of a history gave their callers, in call
    order. *)
Fixpoint handles (ops : list ChannelOp) (c : Channel.t)
  : list (Completion Subscription) :=
  match ops with
  | [] => []
  | op :: rest =>
      match op with
      | CSubscribe callback replay =>
          [result (Channel.subscribe callback replay c)]
      | _ => []
      end ++ handles rest (channel_step c op)
  end.

Inductive HubOp : Type :=
  | HSubscribe (channel : string) (callback : EventCallback) (replay : bool)
  | HUnsubscribe (s : Subscription)
  | HPublish (channel : string) (data : JsValue)
  | HLastEvent (channel : string).

Definition hub_step (h : EventHub.t) (op : HubOp) : EventHub.t :=
  match op with
  | HSubscribe channel callback replay =>
      state (EventHub.subscribe channel callback replay h)
  | HUnsubscribe s => state (EventHub.unsubscribe s h)
  | HPublish channel data => state (EventHub.publish channel data h)
  | HLastEvent channel => state (EventHub.lastEvent channel h)
  end.

Definition hub_run (ops : list HubOp) (h : EventHub.t) : EventHub.t :=
  foldl hub_step h ops.

(** The names under which a history gets a channel created: those it
    subscribes to, publishes on or reads, the inherited ones apart. *)
Definition names_created (ops : list HubOp) : gset string :=
  list_to_set (omap (fun op =>
    match op with
    | HSubscribe n _ _ | HPublish n _ | HLastEvent n =>
        if inherited n then None else Some n
    | HUnsubscribe _ => None
    end) ops).

(** ** What a fan-out delivers *)

(** Does the callback return when called with [msg]? *)
Definition returns (msg : EventMessage) (callback : EventCallback) : bool :=
  if cb_run callback msg is Normal _ then true else false.

(** The callbacks of [cbs] that a [forEach] reaches: all of them up to and
    including the first one that throws. *)
Fixpoint reached (msg : EventMessage) (cbs : list EventCallback)
  : list EventCallback :=
  match cbs with
  | [] => []
  | cb :: rest => cb :: (if returns msg cb then reached msg rest else [])
  end.

(** How the [forEach] ends: with the first throw, if there is one. *)
Fixpoint fanout_end (msg : EventMessage) (cbs : list EventCallback)
  : Completion unit :=
  match cbs with
  | [] => Normal tt
  | cb :: rest =>
      match cb_run cb msg with
      | Normal _ => fanout_end msg rest
      | Thrown e => Thrown e
      end
  end.

(** The log entries of calling each of [cbs] with [msg], in order. *)
Definition calls (msg : EventMessage) (cbs : list EventCallback)
  : list Invocation :=
  map (fun cb => mkInvocation (cb_ref cb) msg) cbs.

(** How often the log holds a call of the callback [ref]. *)
Definition times_invoked (ref : nat) (l : list Invocation) : nat :=
  length (filter (fun i => inv_cb i = ref) l).

(** The envelope a channel builds for the value [v]. *)
Definition envelope (c : Channel.t) (v : JsValue) : EventMessage :=
  mkEventMessage (Channel._name c) v.

(** The channel a [subscribe] leaves behind: the counter moved on by one
    and the callback stored under the new counter value. *)
Definition subscribed (cb : EventCallback) (c : Channel.t) : Channel.t :=
  Channel.mk (Channel._name c) (Channel._lastEvent c)
    (S (Channel._lastId c))
    (cl_set (S (Channel._lastId c)) cb (Channel._callbacks c)).

(** The channel a hub call naming [n] works on: the one stored under [n],
    or the one the call first creates. *)
Definition channel_of (n : string) (h : EventHub.t) : Channel.t :=
  default (Channel.new n) (EventHub._channels h !! n).

(** A hub call naming [n] gets to a channel: the hub has an entry of its
    own under [n], or [n] is a name under which one can be created. *)
Definition usable (n : string) (h : EventHub.t) : Prop :=
  inherited n = false \/ is_Some (EventHub._channels h !! n).

(** The hub has no entry of its own under an inherited name. *)
Definition hub_own_names (h : EventHub.t) : Prop :=
  forall n, inherited n = true -> EventHub._channels h !! n = None.

(** A computation keeps a property of the object it runs on. *)
Definition preserves {St A} (P : St -> Prop) (m : Eff St A) : Prop :=
  forall s, P s -> P (state (m s)).

(** In the hub, the channel [n] exists and retains the value [v]. *)
Definition retains (n : string) (v : JsValue) (h : EventHub.t) : Prop :=
  exists c, EventHub._channels h !! n = Some c /\ Channel._lastEvent c = v.

(** ** State invariants *)

(** Keys ascend strictly (so they are pairwise distinct) and lie between 1
    and the counter. *)
Definition channel_inv (c : Channel.t) : Prop :=
  StronglySorted lt (Object_keys (Channel._callbacks c)) /\
  Forall (fun k => 1 <= k <= Channel._lastId c)
         (Object_keys (Channel._callbacks c)).

(** The wildcard channel exists and every channel is stored under its own
    name. *)
Definition hub_inv (h : EventHub.t) : Prop :=
  is_Some (EventHub._channels h !! WildCardChannel) /\
  forall n c, EventHub._channels h !! n = Some c -> Channel._name c = n.


(** The subscribe calls of a hub history that name the channel [n]. *)
Definition subscribes_to (n : string) (op : HubOp) : bool :=
  if op is HSubscribe m _ _ then bool_decide (m = n) else false.

Definition subscribes_on (n : string) (ops : list HubOp) : nat :=
  length (filter (fun op => subscribes_to n op) ops).

(** How many of [cbs] are the callback [ref]. *)
Definition count_ref (ref : nat) (cbs : list EventCallback) : nat :=
  length (filter (fun cb => cb_ref cb = ref) cbs).

(** Every channel of the hub keeps the channel invariant. *)
Definition hub_channels_inv (h : EventHub.t) : Prop :=
  forall n c, EventHub._channels h !! n = Some c -> channel_inv c.


(** ** The earlier revision: [src/event-hub.ts]

    The hub before the wildcard channel.  A callback receives the published
    value itself, not an envelope; the hub starts without any channel and a
    publish reaches the named channel only.  Methods are written in
    state-passing style: a call maps the object to how the call ended, the
    object afterwards and the calls it made. *)

Module Legacy.

(** [type EventCallback<TEvent> = (event: TEvent) => void] *)
Record EventCallback : Type := mkCallback {
  cb_ref : nat;
  cb_run : JsValue -> Completion unit
}.

(** One call of a callback: which one, and with what value. *)
Record Invocation : Type := mkInvocation {
  inv_cb : nat;
  inv_event : JsValue
}.

Definition result {St A} (r : Completion A * St * list Invocation)
  : Completion A := r.1.1.
Definition state {St A} (r : Completion A * St * list Invocation)
  : St := r.1.2.
Definition log {St A} (r : Completion A * St * list Invocation)
  : list Invocation := r.2.

(** [type CallbackList<TEvent> = Record<number, EventCallback<TEvent>>],
    with [obj[id] = callback] and [delete obj[id]] as for the current
    revision. *)
Fixpoint cl_set (id : nat) (callback : EventCallback)
    (l : list (nat * EventCallback)) : list (nat * EventCallback) :=
  match l with
  | [] => [(id, callback)]
  | (k, c) :: l' =>
      if decide (id < k) then (id, callback) :: (k, c) :: l'
      else if decide (id = k) then (id, callback) :: l'
      else (k, c) :: cl_set id callback l'
  end.

Fixpoint cl_delete (id : nat) (l : list (nat * EventCallback))
  : list (nat * EventCallback) :=
  match l with
  | [] => []
  | (k, c) :: l' =>
      if decide (k = id) then cl_delete id l' else (k, c) :: cl_delete id l'
  end.

(** [callbacks.forEach((callback) => { callback(data); })]: in order,
    stopping at the first throw. *)
Fixpoint forEach (cbs : list EventCallback) (event : JsValue)
  : Completion unit * list Invocation :=
  match cbs with
  | [] => (Normal tt, [])
  | cb :: rest =>
      match cb_run cb event with
      | Normal _ =>
          match forEach rest event with
          | (r, l) => (r, mkInvocation (cb_ref cb) event :: l)
          end
      | Thrown e => (Thrown e, [mkInvocation (cb_ref cb) event])
      end
  end.

Module Channel.

Record t : Type := mk {
  _name : string;
  _lastEvent : JsValue;
  _lastId : nat;
  _callbacks : list (nat * EventCallback)
}.

(** [constructor(name)] with the field initialisers. *)
Definition new (name : string) : t := mk name JsUndefined 0 [].

Definition name (c : t) : string := _name c.
Definition lastEvent (c : t) : JsValue := _lastEvent c.
Definition callbacks (c : t) : list (nat * EventCallback) := _callbacks c.

(** [subscribe(callback, replay = false)]: [const id = ++this._lastId],
    the assignment [this._callbacks[id] = callback], then the replay
    [if (replay && lastEvent) callback(lastEvent)], then the handle. *)
Definition subscribe (callback : EventCallback) (replay : bool) (c : t)
  : Completion Subscription * t * list Invocation :=
  let id := S (_lastId c) in
  let lastEvent := _lastEvent c in
  let c' := mk (_name c) (_lastEvent c) id (cl_set id callback (_callbacks c)) in
  if replay && truthy lastEvent then
    match cb_run callback lastEvent with
    | Normal _ => (Normal (mkSubscription (_name c) id), c',
                   [mkInvocation (cb_ref callback) lastEvent])
    | Thrown e => (Thrown e, c', [mkInvocation (cb_ref callback) lastEvent])
    end
  else (Normal (mkSubscription (_name c) id), c', []).

(** The closure of a handle: [delete this._callbacks[id]]. *)
Definition unsubscribe (s : Subscription) (c : t) : t :=
  mk (_name c) (_lastEvent c) (_lastId c) (cl_delete (id s) (_callbacks c)).

(** [publish(data)]: [this._lastEvent = data], then the fan-out over
    [Object.values(this._callbacks)]. *)
Definition publish (data : JsValue) (c : t)
  : Completion unit * t * list Invocation :=
  let c' := mk (_name c) data (_lastId c) (_callbacks c) in
  match forEach (_callbacks c').*2 data with
  | (r, l) => (r, c', l)
  end.

End Channel.

Module EventHub.

Record t : Type := mk {
  _channels : gmap string Channel.t
}.

(** [constructor() {}] over [_channels = {}]. *)
Definition new : t := mk ∅.

Definition channels (h : t) : gmap string Channel.t := _channels h.

(** [if (!this._channels[channel]) this._channels[channel] = new Channel(channel)]:
    as in the current revision, the read is truthy for an entry of the
    hub's own and for an inherited property. *)
Definition ensure (channel : string) (h : t) : t :=
  match _channels h !! channel with
  | Some _ => h
  | None =>
      if inherited channel then h
      else mk (<[channel := Channel.new channel]> (_channels h))
  end.

(** [this._channels[channel].m(...)] on the channel object stored under
    [channel]; without an entry of the hub's own the method is missing and
    the call throws. *)
Definition on_channel {A} (channel : string)
    (m : Channel.t -> Completion A * Channel.t * list Invocation) (h : t)
  : Completion A * t * list Invocation :=
  match _channels h !! channel with
  | Some c =>
      match m c with
      | (r, c', l) => (r, mk (<[channel := c']> (_channels h)), l)
      end
  | None => (Thrown TypeError, h, [])
  end.

(** [subscribe(channel, callback, replay = false)] *)
Definition subscribe (channel : string) (callback : EventCallback)
    (replay : bool) (h : t) : Completion Subscription * t * list Invocation :=
  on_channel channel (Channel.subscribe callback replay) (ensure channel h).

(** [publish(channel, data)] *)
Definition publish (channel : string) (data : JsValue) (h : t)
  : Completion unit * t * list Invocation :=
  on_channel channel (Channel.publish data) (ensure channel h).

(** [lastEvent(channel)]: the guard, then the read
    [this._channels[channel].lastEvent], which is [undefined] on an
    inherited property. *)
Definition lastEvent (channel : string) (h : t)
  : Completion JsValue * t * list Invocation :=
  let h' := ensure channel h in
  match _channels h' !! channel with
  | Some c => (Normal (Channel.lastEvent c), h', [])
  | None =>
      if inherited channel then (Normal JsUndefined, h', [])
      else (Thrown TypeError, h', [])
  end.

(** Running the closure of a handle on the channel it captured. *)
Definition unsubscribe (s : Subscription) (h : t) : t :=
  match _channels h !! sub_this s with
  | Some c => mk (<[sub_this s := Channel.unsubscribe s c]> (_channels h))
  | None => h
  end.

End EventHub.

(** Histories of calls on an earlier-revision hub. *)
Inductive HubOp : Type :=
  | HSubscribe (channel : string) (callback : EventCallback) (replay : bool)
  | HUnsubscribe (s : Subscription)
  | HPublish (channel : string) (data : JsValue)
  | HLastEvent (channel : string).

Definition hub_step (h : EventHub.t) (op : HubOp) : EventHub.t :=
  match op with
  | HSubscribe channel callback replay =>
      state (EventHub.subscribe channel callback replay h)
  | HUnsubscribe s => EventHub.unsubscribe s h
  | HPublish channel data => state (EventHub.publish channel data h)
  | HLastEvent channel => state (EventHub.lastEvent channel h)
  end.

Definition hub_run (ops : list HubOp) (h : EventHub.t) : EventHub.t :=
  foldl hub_step h ops.

(** The names under which a history gets a channel created: those it
    subscribes to, publishes on or reads, the inherited ones apart. *)
Definition names_created (ops : list HubOp) : gset string :=
  list_to_set (omap (fun op =>
    match op with
    | HSubscribe n _ _ | HPublish n _ | HLastEvent n =>
        if inherited n then None else Some n
    | HUnsubscribe _ => None
    end) ops).

(** The channel a call naming [n] works on. *)
Definition channel_of (n : string) (h : EventHub.t) : Channel.t :=
  default (Channel.new n) (EventHub._channels h !! n).

(** A call naming [n] gets to a channel. *)
Definition usable (n : string) (h : EventHub.t) : Prop :=
  inherited n = false \/ is_Some (EventHub._channels h !! n).

End Legacy.


(** * Properties *)

(** ** The callback object *)

Section CallbackList.
Implicit Types (l : CallbackList) (k i : nat) (cb : EventCallback).

(** Assigning under a key above all present keys puts the entry last. *)
Lemma cl_set_above i cb l :
  Forall (fun k => k < i) (Object_keys l) ->
  cl_set i cb l = l ++ [(i, cb)].
Proof.
  unfold Object_keys. induction l as [|[k c] l IH]; simpl; intros H.
  - reflexivity.
  - apply Forall_cons in H as [Hk Hl].
    destruct (decide (i < k)); [lia|].
    destruct (decide (i = k)); [lia|].
    by rewrite IH.
Qed.

Lemma cl_delete_filter i l :
  cl_delete i l = filter (fun p => p.1 <> i) l.
Proof.
  induction l as [|[k c] l IH]; [done|].
  rewrite filter_cons. simpl.
  destruct (decide (k = i)), (decide (k <> i)); try done; by rewrite IH.
Qed.

Lemma cl_delete_keys i l :
  Object_keys (cl_delete i l) = filter (fun k => k <> i) (Object_keys l).
Proof.
  unfold Object_keys. induction l as [|[k c] l IH]; [done|].
  rewrite fmap_cons, filter_cons. cbn [cl_delete fst].
  destruct (decide (k = i)), (decide (k <> i)); try done;
    rewrite ?fmap_cons; by rewrite IH.
Qed.

Lemma cl_delete_absent i l :
  i ∉ Object_keys l -> cl_delete i l = l.
Proof.
  unfold Object_keys. induction l as [|[k c] l IH]; simpl; [done|].
  intros H. apply not_elem_of_cons in H as [Hne Hl].
  destruct (decide (k = i)); [congruence|]. by rewrite IH.
Qed.

Lemma cl_delete_gone i l : i ∉ Object_keys (cl_delete i l).
Proof.
  rewrite cl_delete_keys. intros H.
  apply list_elem_of_filter in H as [H _]. by apply H.
Qed.

Lemma cl_delete_idem i l : cl_delete i (cl_delete i l) = cl_delete i l.
Proof. apply cl_delete_absent, cl_delete_gone. Qed.

Lemma cl_get_delete_eq i l : cl_get i (cl_delete i l) = None.
Proof.
  induction l as [|[k c] l IH]; simpl; [done|].
  destruct (decide (k = i)); [done|]. simpl.
  by destruct (decide (k = i)).
Qed.

Lemma cl_get_delete_ne i k l :
  k <> i -> cl_get k (cl_delete i l) = cl_get k l.
Proof.
  intros Hne. induction l as [|[k' c] l IH]; simpl; [done|].
  destruct (decide (k' = i)); simpl; destruct (decide (k' = k));
    try congruence; done.
Qed.

Lemma cl_get_None i l : cl_get i l = None <-> i ∉ Object_keys l.
Proof.
  unfold Object_keys. induction l as [|[k c] l IH]; simpl.
  - split; [intros _; apply not_elem_of_nil | done].
  - rewrite not_elem_of_cons. destruct (decide (k = i)) as [->|Hne].
    + split; [done | by intros [? _]].
    + rewrite IH. split; [by intros ? | by intros [_ ?]].
Qed.

Lemma cl_get_snoc_eq i cb l :
  i ∉ Object_keys l -> cl_get i (l ++ [(i, cb)]) = Some cb.
Proof.
  unfold Object_keys. induction l as [|[k c] l IH]; simpl; intros H.
  - by destruct (decide (i = i)).
  - apply not_elem_of_cons in H as [Hne Hl].
    destruct (decide (k = i)); [congruence|]. by apply IH.
Qed.

Lemma cl_get_snoc_ne i k cb l :
  k <> i -> cl_get k (l ++ [(i, cb)]) = cl_get k l.
Proof.
  intros Hne. induction l as [|[k' c] l IH]; simpl.
  - destruct (decide (i = k)); [congruence | done].
  - destruct (decide (k' = k)); done.
Qed.

Lemma StronglySorted_filter_lt (P : nat -> Prop) `{forall k, Decision (P k)}
    (ks : list nat) :
  StronglySorted lt ks -> StronglySorted lt (filter P ks).
Proof.
  induction 1 as [|k ks Hs IH Hall]; [constructor|].
  rewrite filter_cons. destruct (decide (P k)); [|done].
  constructor; [done|].
  apply Forall_forall. intros x Hx.
  apply list_elem_of_filter in Hx as [_ Hx].
  rewrite Forall_forall in Hall. by apply Hall.
Qed.

Lemma StronglySorted_lt_NoDup (ks : list nat) :
  StronglySorted lt ks -> NoDup ks.
Proof.
  induction 1 as [|k ks Hs IH Hall]; constructor; [|done].
  intros Hin. rewrite Forall_forall in Hall. specialize (Hall _ Hin). lia.
Qed.
End CallbackList.

(** ** What each method does, in closed form *)

Section Methods.
Implicit Types (c : Channel.t) (cb : EventCallback) (v : JsValue).

Lemma forEach_fanout c v (cbs : list EventCallback) :
  forEach cbs (fun callback =>
    (let* this_name := gets Channel.name in
     invoke callback (mkEventMessage this_name v))%eff) c
  = (fanout_end (envelope c v) cbs, c,
     calls (envelope c v) (reached (envelope c v) cbs)).
Proof.
  induction cbs as [|cb cbs IH]; [done|].
  cbn [forEach fanout_end reached calls map].
  unfold bind at 1. unfold bind at 1.
  unfold gets at 1, invoke at 1.
  unfold Channel.name, returns, envelope in *.
  destruct (cb_run cb _) as [[]|e]; [|done].
  rewrite IH. done.
Qed.

Lemma publish_spec v c :
  Channel.publish v c =
    (fanout_end (envelope c v) (Object_values (Channel._callbacks c)),
     Channel.set_lastEvent v c,
     calls (envelope c v)
           (reached (envelope c v) (Object_values (Channel._callbacks c)))).
Proof.
  unfold Channel.publish. unfold bind at 1, modify at 1.
  unfold bind at 1, gets at 1.
  rewrite forEach_fanout. done.
Qed.

Lemma subscribe_spec cb (replay : bool) c :
  Channel.subscribe cb replay c =
    let handle := mkSubscription (Channel._name c) (S (Channel._lastId c)) in
    let msg := envelope c (Channel._lastEvent c) in
    if replay && truthy (Channel._lastEvent c) then
      match cb_run cb msg with
      | Normal _ => (Normal handle, subscribed cb c,
                     [mkInvocation (cb_ref cb) msg])
      | Thrown e => (Thrown e, subscribed cb c,
                     [mkInvocation (cb_ref cb) msg])
      end
    else (Normal handle, subscribed cb c, []).
Proof.
  unfold Channel.subscribe, Channel.getNextId, bind, modify, gets, ret,
    invoke, subscribed, envelope, Channel.name; simpl.
  destruct (replay && truthy (Channel._lastEvent c)); simpl; [|done].
  by destruct (cb_run cb _) as [[]|e].
Qed.

Lemma unsubscribe_spec (s : Subscription) c :
  Channel.unsubscribe s c =
    (Normal tt,
     Channel.set_callbacks (cl_delete (id s) (Channel._callbacks c)) c, []).
Proof. done. Qed.

Lemma reached_all msg (cbs : list EventCallback) :
  forallb (returns msg) cbs = true ->
  reached msg cbs = cbs /\ fanout_end msg cbs = Normal tt.
Proof.
  induction cbs as [|cb cbs IH]; simpl; [done|].
  intros [Hcb Hall]%andb_prop. unfold returns in *.
  destruct (cb_run cb msg) as [[]|e]; [|done].
  destruct (IH Hall) as [-> ->]. done.
Qed.

Lemma reached_throw msg (pre post : list EventCallback) cb e :
  forallb (returns msg) pre = true ->
  cb_run cb msg = Thrown e ->
  reached msg (pre ++ cb :: post) = pre ++ [cb] /\
  fanout_end msg (pre ++ cb :: post) = Thrown e.
Proof.
  intros Hpre Hcb. induction pre as [|p pre IH]; simpl.
  - unfold returns. by rewrite Hcb.
  - simpl in Hpre. apply andb_prop in Hpre as [Hp Hpre].
    unfold returns in *.
    destruct (cb_run p msg) as [[]|e']; [|done].
    destruct (IH Hpre) as [-> ->]. done.
Qed.
End Methods.

(** ** Channels along a history *)

Section ChannelHistory.
Implicit Types (c : Channel.t) (cb : EventCallback) (v : JsValue)
  (ops : list ChannelOp).

Lemma subscribe_state cb replay c :
  state (Channel.subscribe cb replay c) = subscribed cb c.
Proof.
  rewrite subscribe_spec. cbv zeta.
  destruct (replay && truthy _); [|done]. by destruct (cb_run cb _).
Qed.

Lemma publish_state v c :
  state (Channel.publish v c) = Channel.set_lastEvent v c.
Proof. by rewrite publish_spec. Qed.

Lemma channel_run_snoc ops op c :
  channel_run (ops ++ [op]) c = channel_step (channel_run ops c) op.
Proof. unfold channel_run. by rewrite foldl_snoc. Qed.

Lemma channel_inv_new name : channel_inv (Channel.new name).
Proof. split; simpl; constructor. Qed.

(** Under the invariant the new key is above all keys, so the new entry
    is the last one: subscription order is key order. *)
Lemma subscribed_callbacks cb c :
  channel_inv c ->
  Channel._callbacks (subscribed cb c) =
    Channel._callbacks c ++ [(S (Channel._lastId c), cb)].
Proof.
  intros [_ Hb]. simpl. apply cl_set_above.
  eapply Forall_impl; [exact Hb|]. simpl. lia.
Qed.

Lemma channel_inv_step c op : channel_inv c -> channel_inv (channel_step c op).
Proof.
  intros Hinv. destruct op as [cb replay|s|v]; simpl.
  - rewrite subscribe_state. unfold channel_inv.
    rewrite subscribed_callbacks by done. destruct Hinv as [Hs Hb].
    unfold Object_keys in *. rewrite fmap_app. simpl. split.
    + apply StronglySorted_app.
      split_and!; [|done|by repeat constructor].
      intros x1 x2 Hx1 ->%list_elem_of_singleton.
      rewrite Forall_forall in Hb. specialize (Hb _ Hx1). lia.
    + apply Forall_app. split.
      * eapply Forall_impl; [exact Hb|]. simpl. lia.
      * apply Forall_singleton. lia.
  - destruct Hinv as [Hs Hb]. split; simpl; rewrite cl_delete_keys.
    + by apply StronglySorted_filter_lt.
    + apply Forall_forall. intros k Hk.
      apply list_elem_of_filter in Hk as [_ Hk].
      rewrite Forall_forall in Hb. by apply Hb.
  - by rewrite publish_state.
Qed.

Lemma channel_run_inv ops c : channel_inv c -> channel_inv (channel_run ops c).
Proof.
  induction ops as [|op ops IH] using rev_ind; [done|].
  intros H. rewrite channel_run_snoc. by apply channel_inv_step, IH.
Qed.

Lemma channel_step_name c op : Channel._name (channel_step c op) = Channel._name c.
Proof.
  destruct op; simpl;
    by rewrite ?subscribe_state, ?publish_state.
Qed.

Lemma channel_run_name ops c : Channel._name (channel_run ops c) = Channel._name c.
Proof.
  induction ops as [|op ops IH] using rev_ind; [done|].
  by rewrite channel_run_snoc, channel_step_name.
Qed.

Lemma channel_run_lastId ops name :
  Channel._lastId (channel_run ops (Channel.new name)) = subscribe_count ops.
Proof.
  unfold subscribe_count.
  induction ops as [|op ops IH] using rev_ind; [done|].
  rewrite channel_run_snoc, filter_app, length_app, <- IH.
  destruct op; simpl;
    rewrite ?subscribe_state, ?publish_state; simpl; lia.
Qed.

Lemma channel_run_lastEvent ops name :
  Channel._lastEvent (channel_run ops (Channel.new name)) =
    default JsUndefined (last_published ops).
Proof.
  unfold last_published.
  induction ops as [|op ops IH] using rev_ind; [done|].
  rewrite channel_run_snoc, omap_app.
  destruct op; simpl;
    rewrite ?subscribe_state, ?publish_state, ?app_nil_r, ?last_snoc;
    done.
Qed.
End ChannelHistory.

(** ** Hubs *)

Section Hub.
Implicit Types (h : EventHub.t) (n : string) (c : Channel.t)
  (v : JsValue) (cb : EventCallback).

Lemma bind_state {St A B} (m : Eff St A) (k : A -> Eff St B) (s : St) :
  state (bind m k s) =
    match result (m s) with
    | Normal a => state (k a (state (m s)))
    | Thrown _ => state (m s)
    end.
Proof.
  unfold bind, state, result. destruct (m s) as [[[a|e] s1] l1]; simpl;
    [|done]. by destruct (k a s1) as [[r s2] l2].
Qed.

Lemma usable_dec n h :
  usable n h \/ (inherited n = true /\ EventHub._channels h !! n = None).
Proof.
  unfold usable. destruct (inherited n); [|by left; left].
  destruct (EventHub._channels h !! n) as [c|]; [left; right; by eexists|].
  by right.
Qed.

Lemma ensure_spec n h :
  usable n h ->
  EventHub.ensure n h =
    (Normal tt, EventHub.mk (<[n := channel_of n h]> (EventHub._channels h)),
     []).
Proof.
  intros Hu. unfold EventHub.ensure, modify, channel_of.
  destruct h as [m]; simpl.
  destruct (m !! n) as [c|] eqn:E; simpl; [by rewrite insert_id|].
  destruct Hu as [->|[c Hc]]; [done|]. simpl in Hc. congruence.
Qed.

Lemma ensure_unusable n h :
  inherited n = true -> EventHub._channels h !! n = None ->
  EventHub.ensure n h = (Normal tt, h, []).
Proof.
  intros Hi E. unfold EventHub.ensure, modify. by rewrite E, Hi.
Qed.

(** A call routed through the hub: the channel's method runs on
    [channel_of n h] and the outcome is stored under [n]. *)
Lemma routed {A} n (m : Eff Channel.t A) h :
  usable n h ->
  bind (EventHub.ensure n) (fun _ => EventHub.on_channel n m) h =
    match m (channel_of n h) with
    | (r, c', l) =>
        (r, EventHub.mk (<[n := c']> (EventHub._channels h)), l)
    end.
Proof.
  intros Hu. unfold bind. rewrite ensure_spec by done.
  unfold EventHub.on_channel. simpl.
  rewrite lookup_insert_eq. destruct (m _) as [[r c'] l]. simpl.
  by rewrite insert_insert_eq.
Qed.

(** Under an inherited name without an entry of the hub's own, nothing is
    created and the method call throws. *)
Lemma routed_unusable {A} n (m : Eff Channel.t A) h :
  inherited n = true -> EventHub._channels h !! n = None ->
  bind (EventHub.ensure n) (fun _ => EventHub.on_channel n m) h =
    (Thrown TypeError, h, []).
Proof.
  intros Hi E. unfold bind. rewrite ensure_unusable by done.
  unfold EventHub.on_channel. by rewrite E.
Qed.

Lemma on_channel_present {A} n (m : Eff Channel.t A) h c :
  EventHub._channels h !! n = Some c ->
  EventHub.on_channel n m h =
    match m c with
    | (r, c', l) =>
        (r, EventHub.mk (<[n := c']> (EventHub._channels h)), l)
    end.
Proof. intros E. unfold EventHub.on_channel. by rewrite E. Qed.

Lemma dom_insert_present n c (m : gmap string Channel.t) :
  n ∈ dom m -> dom (<[n := c]> m) = dom m.
Proof.
  intros Hn. rewrite dom_insert_L.
  by apply subseteq_union_1_L, singleton_subseteq_l.
Qed.

Lemma on_channel_dom {A} n (m : Eff Channel.t A) h :
  dom (EventHub._channels (state (EventHub.on_channel n m h))) =
    dom (EventHub._channels h).
Proof.
  unfold EventHub.on_channel.
  destruct (EventHub._channels h !! n) as [c|] eqn:E; [|done].
  destruct (m c) as [[r c'] l]. unfold state; simpl.
  apply dom_insert_present. by apply elem_of_dom_2 in E.
Qed.

Lemma ensure_dom n h :
  dom (EventHub._channels (state (EventHub.ensure n h))) =
    dom (EventHub._channels h) ∪ (if inherited n then ∅ else {[n]}).
Proof.
  unfold EventHub.ensure, modify, state; simpl.
  destruct (EventHub._channels h !! n) as [c|] eqn:E.
  - apply elem_of_dom_2 in E. destruct (inherited n).
    + by rewrite (right_id_L ∅ (∪)).
    + symmetry. rewrite (comm_L (∪)).
      by apply subseteq_union_1_L, singleton_subseteq_l.
  - destruct (inherited n); simpl.
    + by rewrite (right_id_L ∅ (∪)).
    + rewrite dom_insert_L. apply (comm_L (∪)).
Qed.

Lemma bind_ensure_state {A} n (k : Eff EventHub.t A) h :
  state (bind (EventHub.ensure n) (fun _ => k) h) =
    state (k (state (EventHub.ensure n h))).
Proof. by rewrite bind_state. Qed.

Lemma subscribe_dom n cb replay h :
  dom (EventHub._channels (state (EventHub.subscribe n cb replay h))) =
    dom (EventHub._channels h) ∪ (if inherited n then ∅ else {[n]}).
Proof.
  unfold EventHub.subscribe. rewrite bind_ensure_state.
  by rewrite on_channel_dom, ensure_dom.
Qed.

Lemma read_lastEvent_state n h :
  state (EventHub.read_lastEvent n h) = h.
Proof.
  unfold EventHub.read_lastEvent.
  destruct (EventHub._channels h !! n); [done|]. by destruct (inherited n).
Qed.

Lemma lastEvent_state n h :
  state (EventHub.lastEvent n h) = state (EventHub.ensure n h).
Proof.
  unfold EventHub.lastEvent. rewrite bind_ensure_state.
  by rewrite read_lastEvent_state.
Qed.

Lemma lastEvent_dom n h :
  dom (EventHub._channels (state (EventHub.lastEvent n h))) =
    dom (EventHub._channels h) ∪ (if inherited n then ∅ else {[n]}).
Proof. by rewrite lastEvent_state, ensure_dom. Qed.

Lemma publish_dom n v h :
  dom (EventHub._channels (state (EventHub.publish n v h))) =
    dom (EventHub._channels h) ∪ (if inherited n then ∅ else {[n]}).
Proof.
  unfold EventHub.publish. rewrite bind_ensure_state.
  repeat (rewrite bind_state; destruct (result _));
    by rewrite ?on_channel_dom, ensure_dom.
Qed.

Lemma unsubscribe_dom (s : Subscription) h :
  dom (EventHub._channels (state (EventHub.unsubscribe s h))) =
    dom (EventHub._channels h).
Proof.
  unfold EventHub.unsubscribe, modify, state; simpl.
  destruct (EventHub._channels h !! sub_this s) as [c|] eqn:E; [|done].
  simpl. apply dom_insert_present. by apply elem_of_dom_2 in E.
Qed.

Lemma preserves_bind {St A B} (P : St -> Prop) (m : Eff St A)
    (k : A -> Eff St B) :
  preserves P m -> (forall a, preserves P (k a)) -> preserves P (bind m k).
Proof.
  intros Hm Hk s Hs. rewrite bind_state.
  destruct (result (m s)); [apply Hk|]; by apply Hm.
Qed.

Lemma hub_inv_new : hub_inv EventHub.new.
Proof.
  split; simpl.
  - by rewrite lookup_singleton_eq.
  - intros n c [<- <-]%lookup_singleton_Some. done.
Qed.

Lemma hub_inv_insert h n c :
  hub_inv h -> Channel._name c = n ->
  hub_inv (EventHub.mk (<[n := c]> (EventHub._channels h))).
Proof.
  intros [Hw Hn] Hc. split; simpl.
  - rewrite lookup_insert. by case_decide.
  - intros n' c'. rewrite lookup_insert. case_decide.
    + intros [= <-]. congruence.
    + apply Hn.
Qed.

Lemma channel_of_name n h : hub_inv h -> Channel._name (channel_of n h) = n.
Proof.
  intros [_ Hn]. unfold channel_of.
  destruct (EventHub._channels h !! n) as [c|] eqn:E; simpl; [|done].
  by apply Hn.
Qed.

Lemma preserves_ensure n : preserves hub_inv (EventHub.ensure n).
Proof.
  intros h Hh. destruct (usable_dec n h) as [Hu|[Hi E]].
  - rewrite ensure_spec by done. unfold state; simpl.
    by apply hub_inv_insert, channel_of_name.
  - by rewrite ensure_unusable.
Qed.

Lemma preserves_on_channel {A} n (m : Eff Channel.t A) :
  (forall c, Channel._name (state (m c)) = Channel._name c) ->
  preserves hub_inv (EventHub.on_channel n m).
Proof.
  intros Hm h Hh. unfold EventHub.on_channel.
  destruct (EventHub._channels h !! n) as [c|] eqn:E; [|done].
  specialize (Hm c). destruct (m c) as [[r c'] l]. unfold state in *.
  simpl in *. apply hub_inv_insert; [done|].
  rewrite Hm. destruct Hh as [_ Hn]. by apply Hn.
Qed.

Lemma preserves_subscribe n cb replay :
  preserves hub_inv (EventHub.subscribe n cb replay).
Proof.
  apply preserves_bind; [apply preserves_ensure|].
  intros _. apply preserves_on_channel. intros c.
  by rewrite subscribe_state.
Qed.

Lemma preserves_publish n v : preserves hub_inv (EventHub.publish n v).
Proof.
  repeat (apply preserves_bind; [|intros _]);
    first [apply preserves_ensure | apply preserves_on_channel];
    intros c; by rewrite publish_state.
Qed.

Lemma preserves_lastEvent n : preserves hub_inv (EventHub.lastEvent n).
Proof.
  intros h Hh. rewrite lastEvent_state. by apply preserves_ensure.
Qed.

Lemma preserves_unsubscribe (s : Subscription) :
  preserves hub_inv (EventHub.unsubscribe s).
Proof.
  intros h Hh. unfold EventHub.unsubscribe, modify, state; simpl.
  destruct (EventHub._channels h !! sub_this s) as [c|] eqn:E; [|done].
  apply hub_inv_insert; [done|]. simpl. destruct Hh as [_ Hn]. by apply Hn.
Qed.

Lemma hub_inv_step h op : hub_inv h -> hub_inv (hub_step h op).
Proof.
  destruct op; simpl.
  - apply preserves_subscribe.
  - apply preserves_unsubscribe.
  - apply preserves_publish.
  - apply preserves_lastEvent.
Qed.

Lemma hub_run_snoc ops op h :
  hub_run (ops ++ [op]) h = hub_step (hub_run ops h) op.
Proof. unfold hub_run. by rewrite foldl_snoc. Qed.

Lemma hub_run_inv ops : hub_inv (hub_run ops EventHub.new).
Proof.
  induction ops as [|op ops IH] using rev_ind; [apply hub_inv_new|].
  rewrite hub_run_snoc. by apply hub_inv_step.
Qed.
(** After the named channel was served, the wildcard entry still holds
    the wildcard channel's callbacks and name. *)
Lemma wildcard_after_named n c' h :
  hub_inv h ->
  Channel._name c' = n ->
  Channel._callbacks c' = Channel._callbacks (channel_of n h) ->
  exists cw,
    <[n := c']> (EventHub._channels h) !! WildCardChannel = Some cw /\
    Channel._name cw = WildCardChannel /\
    Channel._callbacks cw =
      Channel._callbacks (channel_of WildCardChannel h).
Proof.
  intros [[cw Hw] Hn] Hname Hcbs. rewrite lookup_insert.
  case_decide as Heq.
  - exists c'. subst n. by rewrite Heq in *.
  - exists cw. split; [done|]. split; [by apply Hn|].
    unfold channel_of. by rewrite Hw.
Qed.

(** The whole of [EventHub.publish] in closed form: the named channel's
    fan-out, then the wildcard channel's, then the wildcard channel's
    again, each one only if the one before completed normally. *)
Lemma hub_publish_spec n v h :
  hub_inv h ->
  usable n h ->
  let msgn := mkEventMessage n v in
  let msgw := mkEventMessage WildCardChannel v in
  let cbsn := Object_values (Channel._callbacks (channel_of n h)) in
  let cbsw :=
    Object_values (Channel._callbacks (channel_of WildCardChannel h)) in
  let ln := calls msgn (reached msgn cbsn) in
  let lw := calls msgw (reached msgw cbsw) in
  observed (EventHub.publish n v h) =
    match fanout_end msgn cbsn with
    | Thrown e => (Thrown e, ln)
    | Normal _ =>
        match fanout_end msgw cbsw with
        | Thrown e => (Thrown e, ln ++ lw)
        | Normal _ => (Normal tt, ln ++ lw ++ lw)
        end
    end.
Proof.
  intros Hh Hu msgn msgw cbsn cbsw ln lw.
  unfold EventHub.publish. unfold bind at 1. rewrite ensure_spec by done.
  unfold bind at 1.
  erewrite on_channel_present by apply lookup_insert_eq.
  rewrite publish_spec. unfold envelope.
  rewrite (channel_of_name n h Hh). fold msgn cbsn ln.
  destruct (fanout_end msgn cbsn) as [[]|e]; [|done].
  cbn [EventHub._channels]. rewrite insert_insert_eq.
  destruct (wildcard_after_named n (Channel.set_lastEvent v (channel_of n h))
              h Hh) as (cw & Hcw & Hcwn & Hcwc);
    [by apply channel_of_name | done |].
  unfold bind at 1.
  erewrite on_channel_present by exact Hcw.
  rewrite publish_spec. unfold envelope. rewrite Hcwn, Hcwc.
  fold msgw cbsw lw.
  destruct (fanout_end msgw cbsw) as [[]|e] eqn:Hend; [|done].
  erewrite on_channel_present by apply lookup_insert_eq.
  rewrite publish_spec. unfold envelope. simpl. rewrite Hcwn, Hcwc.
  fold msgw cbsw lw. rewrite Hend. done.
Qed.

(** Under an inherited name without an entry of the hub's own, a publish
    throws before it reaches any channel. *)
Lemma hub_publish_unusable n v h :
  inherited n = true -> EventHub._channels h !! n = None ->
  EventHub.publish n v h = (Thrown TypeError, h, []).
Proof.
  intros Hi E. unfold EventHub.publish. unfold bind at 1.
  rewrite ensure_unusable by done. unfold bind at 1.
  unfold EventHub.on_channel at 1. by rewrite E.
Qed.

Lemma channel_of_unusable n h :
  EventHub._channels h !! n = None -> channel_of n h = Channel.new n.
Proof. unfold channel_of. by intros ->. Qed.
End Hub.

(** ** Subscribing *)

Section Subscribing.
Implicit Types (c : Channel.t) (cb : EventCallback) (v : JsValue)
  (ops : list ChannelOp).

(** Whom a [subscribe] calls: the new callback, once, with the retained
    value, exactly when [replay] is set and the retained value is truthy. *)
Lemma replay_log cb replay c :
  log (Channel.subscribe cb replay c) =
    if replay && truthy (Channel.lastEvent c)
    then [mkInvocation (cb_ref cb) (envelope c (Channel.lastEvent c))]
    else [].
Proof.
  rewrite subscribe_spec. cbv zeta. unfold Channel.lastEvent.
  destruct (replay && truthy _); [|done]. by destruct (cb_run cb _).
Qed.

(** C2. On a channel whose only publish carried [false], a subscribe with
    [replay = true] returns its handle without having called the
    callback, although [lastEvent] holds the published value: the replay
    guard tests the retained value for truthiness, not for presence. *)
Theorem replay_skips_falsy_value :
  let cb := mkCallback 1 (fun _ => Normal tt) in
  let c := channel_run [CPublish (JsBool false)] (Channel.new "test") in
  Channel.lastEvent c = JsBool false /\
  observed (Channel.subscribe cb true c) =
    (Normal (mkSubscription "test" 1), []).
Proof. split; reflexivity. Qed.

(** C3 as stated fails twice over.  After one subscribe the only key is 1
    and the counter is 1, so the key is not strictly below the counter.
    After [publish(undefined)] a publish has occurred, yet [lastEvent] is
    [undefined], that is, not set. *)
Lemma stated_channel_invariant_fails :
  (let c := channel_run [CSubscribe (mkCallback 0 (fun _ => Normal tt)) false]
              (Channel.new "test") in
   Object_keys (Channel.callbacks c) = [1] /\
   Channel._lastId c = 1 /\
   ~ Forall (fun k => k < Channel._lastId c)
        (Object_keys (Channel.callbacks c))) /\
  (let ops := [CPublish JsUndefined] in
   let c := channel_run ops (Channel.new "test") in
   last_published ops = Some JsUndefined /\
   Channel.lastEvent c = JsUndefined).
Proof.
  split.
  - split; [reflexivity|]. split; [reflexivity|].
    simpl. intros H. apply Forall_cons in H as [H _]. lia.
  - split; reflexivity.
Qed.

(** C3, amended.  After every history of subscribe, unsubscribe and
    publish calls on a channel, the keys of [_callbacks] are pairwise
    distinct and at most the counter [_lastId] (less than or equal to it,
    not strictly less), and [lastEvent] is set, that is not [undefined],
    if and only if at least one publish has occurred and the most recent
    one carried a value other than [undefined]. *)
Theorem channel_invariant name ops :
  let c := channel_run ops (Channel.new name) in
  NoDup (Object_keys (Channel.callbacks c)) /\
  Forall (fun k => k <= Channel._lastId c)
         (Object_keys (Channel.callbacks c)) /\
  (Channel.lastEvent c <> JsUndefined <->
   exists v, last_published ops = Some v /\ v <> JsUndefined).
Proof.
  intros c.
  destruct (channel_run_inv ops (Channel.new name) (channel_inv_new name))
    as [Hs Hb].
  split_and!.
  - by apply StronglySorted_lt_NoDup.
  - eapply Forall_impl; [exact Hb|]. unfold c. simpl. lia.
  - unfold c, Channel.lastEvent. rewrite channel_run_lastEvent.
    destruct (last_published ops) as [v|]; simpl.
    + split.
      * intros Hv. exists v. by split.
      * by intros (v' & [= <-] & Hv').
    + split; [done|]. by intros (v' & Hv' & _).
Qed.

Lemma channel_invariant_witness :
  let ops := [CPublish JsUndefined;
              CSubscribe (mkCallback 0 (fun _ => Normal tt)) true;
              CPublish (JsBool false)] in
  Channel.lastEvent (channel_run ops (Channel.new "test")) <> JsUndefined.
Proof.
  intros ops.
  apply (proj2 (proj2 (channel_invariant "test" ops))).
  exists (JsBool false). split; [reflexivity | discriminate].
Defined.

Lemma handles_app ops ops' c :
  handles (ops ++ ops') c = handles ops c ++ handles ops' (channel_run ops c).
Proof.
  revert c. induction ops as [|op ops IH]; intros c; [done|].
  simpl. by rewrite IH, (assoc_L (++)).
Qed.

Lemma handles_length ops c : length (handles ops c) = subscribe_count ops.
Proof.
  unfold subscribe_count. revert c.
  induction ops as [|op ops IH]; intros c; [done|].
  simpl. rewrite length_app, IH, filter_cons.
  by destruct op.
Qed.

Lemma subscribe_result cb replay c :
  result (Channel.subscribe cb replay c) =
    Normal (mkSubscription (Channel._name c) (S (Channel._lastId c))) \/
  exists e, result (Channel.subscribe cb replay c) = Thrown e.
Proof.
  rewrite subscribe_spec. cbv zeta.
  destruct (replay && truthy _); [|by left].
  destruct (cb_run cb _); [by left | right; by eexists].
Qed.

Lemma handles_numbered name ops i r :
  handles ops (Channel.new name) !! i = Some r ->
  r = Normal (mkSubscription name (S i)) \/ exists e, r = Thrown e.
Proof.
  revert i r. induction ops as [|op ops IH] using rev_ind; [done|].
  intros i r. rewrite handles_app. simpl. rewrite app_nil_r.
  destruct op as [cb replay|s|v]; simpl; rewrite ?app_nil_r; try apply IH.
  intros [Hi|[Hi Hr]]%lookup_app_Some; [by apply IH|].
  apply list_lookup_singleton_Some in Hr as [Hi0 <-].
  rewrite handles_length in Hi, Hi0.
  replace i with (subscribe_count ops) by lia.
  rewrite <- (channel_run_lastId ops name).
  pose proof (subscribe_result cb replay (channel_run ops (Channel.new name)))
    as Hres.
  by rewrite channel_run_name in Hres.
Qed.

(** C5.  On a fresh channel the first subscribe returns identifier 1.
    After any history, the next subscribe is the Nth to arrive, N being
    one more than the number of subscribe calls so far whatever was
    unsubscribed or published in between: it stores the callback under N,
    which is above every key in use, and returns a handle with identifier
    N (unless the callback throws in the replay, in which case that throw
    is what the caller gets).  So the subscribe calls of a history that
    returned, returned 1, 2, 3, ... by their place among the subscribe
    calls. *)
Theorem nth_subscribe_gets_id_n name ops cb replay :
  let c := channel_run ops (Channel.new name) in
  let n := S (subscribe_count ops) in
  let msg := envelope c (Channel.lastEvent c) in
  result (Channel.subscribe cb replay (Channel.new name)) =
    Normal (mkSubscription name 1) /\
  result (Channel.subscribe cb replay c) =
    (if replay && truthy (Channel.lastEvent c)
     then match cb_run cb msg with
          | Normal _ => Normal (mkSubscription name n)
          | Thrown e => Thrown e
          end
     else Normal (mkSubscription name n)) /\
  cl_get n (Channel.callbacks (state (Channel.subscribe cb replay c))) =
    Some cb /\
  Forall (fun k => k < n) (Object_keys (Channel.callbacks c)) /\
  Channel._lastId (state (Channel.subscribe cb replay c)) = n /\
  (forall i r, handles ops (Channel.new name) !! i = Some r ->
     r = Normal (mkSubscription name (S i)) \/ exists e, r = Thrown e).
Proof.
  intros c n msg.
  pose proof (channel_run_inv ops _ (channel_inv_new name)) as Hinv.
  fold c in Hinv.
  assert (Hn : S (Channel._lastId c) = n)
    by (unfold n, c; by rewrite channel_run_lastId).
  assert (Hname : Channel._name c = name)
    by (unfold c; by rewrite channel_run_name).
  assert (Hlt : Forall (fun k => k < n) (Object_keys (Channel.callbacks c))).
  { destruct Hinv as [_ Hb]. eapply Forall_impl; [exact Hb|]. simpl. lia. }
  split_and!.
  - rewrite subscribe_spec. simpl. by rewrite andb_false_r.
  - rewrite subscribe_spec. cbv zeta. unfold Channel.lastEvent, msg.
    rewrite Hn, Hname. unfold result.
    destruct (replay && truthy _); [|done]. by destruct (cb_run cb _).
  - rewrite subscribe_state. unfold Channel.callbacks.
    rewrite subscribed_callbacks by done. rewrite Hn.
    apply cl_get_snoc_eq. intros Hin.
    rewrite Forall_forall in Hlt. specialize (Hlt _ Hin). lia.
  - done.
  - by rewrite subscribe_state.
  - apply handles_numbered.
Qed.

Lemma nth_subscribe_gets_id_n_witness :
  let quiet := mkCallback 0 (fun _ => Normal tt) in
  let ops := [CSubscribe quiet false;
              CUnsubscribe (mkSubscription "test" 1);
              CSubscribe quiet false;
              CPublish (JsNumber 1);
              CSubscribe quiet true] in
  handles ops (Channel.new "test") !! 2 =
    Some (Normal (mkSubscription "test" 3)) /\
  (Normal (mkSubscription "test" 3) = Normal (mkSubscription "test" 3) \/
   exists e, Normal (mkSubscription "test" 3) = Thrown e).
Proof.
  intros quiet ops. split; [reflexivity|].
  destruct (nth_subscribe_gets_id_n "test" ops quiet false)
    as (_ & _ & _ & _ & _ & Hnum).
  apply (Hnum 2). reflexivity.
Defined.
End Subscribing.

(** ** Publishing and unsubscribing on a channel *)

Section Publishing.
Implicit Types (c : Channel.t) (cb : EventCallback) (v : JsValue)
  (ops : list ChannelOp).

(** C4.  On a channel reached by any history, the keys of [_callbacks]
    ascend strictly, and a publish during which every callback returns
    calls every registered callback once, in ascending key order, each with
    the envelope of the channel's name and the value.  With three
    subscribers (identifiers 1, 2, 3), unsubscribing identifier 2 leaves
    the keys 1 and 3, and a publish calls the first and the third
    callback, in that order. *)
Theorem publish_in_subscription_order name ops v (a b d : EventCallback) :
  let c := channel_run ops (Channel.new name) in
  let c3 := channel_run [CSubscribe a false; CSubscribe b false;
                         CSubscribe d false] (Channel.new name) in
  let c' := channel_step c3 (CUnsubscribe (mkSubscription name 2)) in
  (StronglySorted lt (Object_keys (Channel.callbacks c)) /\
   (forallb (returns (envelope c v)) (Object_values (Channel.callbacks c))
      = true ->
    observed (Channel.publish v c) =
      (Normal tt,
       calls (envelope c v) (Object_values (Channel.callbacks c))))) /\
  (Channel.callbacks c3 = [(1, a); (2, b); (3, d)] /\
   Channel.callbacks c' = [(1, a); (3, d)] /\
   (returns (mkEventMessage name v) a = true ->
    returns (mkEventMessage name v) d = true ->
    observed (Channel.publish v c') =
      (Normal tt, [mkInvocation (cb_ref a) (mkEventMessage name v);
                   mkInvocation (cb_ref d) (mkEventMessage name v)]))).
Proof.
  intros c c3 c'. split; [split|split_and!].
  - by destruct (channel_run_inv ops _ (channel_inv_new name)).
  - intros Hall. rewrite publish_spec. unfold observed, result, log; simpl.
    unfold Channel.callbacks in *.
    by destruct (reached_all _ _ Hall) as [-> ->].
  - reflexivity.
  - reflexivity.
  - intros Ha Hd. rewrite publish_spec.
    change (Object_values (Channel._callbacks c')) with [a; d].
    change (envelope c' v) with (mkEventMessage name v).
    unfold observed, result, log; simpl. unfold returns in *.
    destruct (cb_run a _); [|done]. by destruct (cb_run d _).
Qed.

Lemma publish_in_subscription_order_witness :
  observed
    (Channel.publish (JsBool true)
       (channel_run
          [CSubscribe (mkCallback 10 (fun _ => Normal tt)) false;
           CSubscribe (mkCallback 20 (fun _ => Normal tt)) false;
           CPublish (JsBool false);
           CUnsubscribe (mkSubscription "test" 1);
           CSubscribe (mkCallback 30 (fun _ => Normal tt)) false]
          (Channel.new "test"))) =
    (Normal tt,
     [mkInvocation 20 (mkEventMessage "test" (JsBool true));
      mkInvocation 30 (mkEventMessage "test" (JsBool true))]) /\
  observed
    (Channel.publish (JsBool true)
       (channel_step
          (channel_run
             [CSubscribe (mkCallback 10 (fun _ => Normal tt)) false;
              CSubscribe (mkCallback 20 (fun _ => Normal tt)) false;
              CSubscribe (mkCallback 30 (fun _ => Normal tt)) false]
             (Channel.new "test"))
          (CUnsubscribe (mkSubscription "test" 2)))) =
    (Normal tt,
     [mkInvocation 10 (mkEventMessage "test" (JsBool true));
      mkInvocation 30 (mkEventMessage "test" (JsBool true))]).
Proof.
  pose proof (publish_in_subscription_order "test"
    [CSubscribe (mkCallback 10 (fun _ => Normal tt)) false;
     CSubscribe (mkCallback 20 (fun _ => Normal tt)) false;
     CPublish (JsBool false);
     CUnsubscribe (mkSubscription "test" 1);
     CSubscribe (mkCallback 30 (fun _ => Normal tt)) false]
    (JsBool true)
    (mkCallback 10 (fun _ => Normal tt))
    (mkCallback 20 (fun _ => Normal tt))
    (mkCallback 30 (fun _ => Normal tt))) as [[_ Hgen] (_ & _ & Hscen)].
  split.
  - apply Hgen. reflexivity.
  - apply Hscen; reflexivity.
Defined.

(** Reading through the hub a channel that exists: the value comes back
    and the hub is as before. *)
Lemma hub_lastEvent_present n (h : EventHub.t) c :
  EventHub._channels h !! n = Some c ->
  EventHub.lastEvent n h = (Normal (Channel.lastEvent c), h, []).
Proof.
  intros E. unfold EventHub.lastEvent, bind, EventHub.ensure, modify.
  rewrite E. unfold EventHub.read_lastEvent. by rewrite E.
Qed.

(** Reading a name the hub has no entry for gives [undefined]: from the
    channel created on the spot, or from the inherited property. *)
Lemma hub_lastEvent_absent n (h : EventHub.t) :
  EventHub._channels h !! n = None ->
  observed (EventHub.lastEvent n h) = (Normal JsUndefined, []).
Proof.
  intros E. unfold EventHub.lastEvent, bind, EventHub.ensure, modify.
  rewrite E. unfold EventHub.read_lastEvent.
  destruct (inherited n) eqn:Hi.
  - by rewrite E.
  - simpl. by rewrite lookup_insert_eq.
Qed.

Lemma publish_keeps_last n m v :
  preserves (retains n v) (EventHub.on_channel m (Channel.publish v)).
Proof.
  intros h (c & Hc & Hv). unfold retains, EventHub.on_channel.
  destruct (EventHub._channels h !! m) as [cm|] eqn:E; [|by exists c].
  rewrite publish_spec. unfold state; simpl. rewrite lookup_insert.
  case_decide as Hmn.
  - by eexists.
  - by exists c.
Qed.

Lemma hub_publish_sets_last n v (h : EventHub.t) :
  usable n h ->
  retains n v (state (EventHub.publish n v h)).
Proof.
  intros Hu.
  unfold EventHub.publish. rewrite bind_state, ensure_spec by done.
  cbn [result state fst snd]. set (h1 := EventHub.mk _).
  assert (Hnamed :
    retains n v (state (EventHub.on_channel n (Channel.publish v) h1))).
  { erewrite on_channel_present by apply lookup_insert_eq.
    rewrite publish_spec. unfold retains, state; simpl.
    rewrite lookup_insert_eq. by eexists. }
  rewrite bind_state. destruct (result _); [|done].
  revert Hnamed.
  apply (preserves_bind (retains n v)); [|intros _];
    apply publish_keeps_last.
Qed.

(** C7.  Whatever a channel held before, after [publish(v)] its
    [lastEvent] is [v]; so after any history [lastEvent] is the value of
    the most recent publish, and reading it leaves the channel as it was
    (the getter returns the field).  A fresh channel has [lastEvent]
    undefined and no subscribers.  Through the hub, for a name [n] under
    which the hub has a channel or can create one (any name that is not a
    property every object inherits): after [publish(n, v)],
    [lastEvent(n)] returns [v], and reading again returns [v] and leaves
    the hub unchanged.  For a name the hub has no channel for,
    [lastEvent] returns [undefined]. *)
Theorem last_event_is_last_published name ops v c (h : EventHub.t) n :
  Channel.lastEvent (state (Channel.publish v c)) = v /\
  Channel.lastEvent (channel_run (ops ++ [CPublish v]) (Channel.new name))
    = v /\
  (last_published ops = Some v ->
   Channel.lastEvent (channel_run ops (Channel.new name)) = v) /\
  (Channel.lastEvent (Channel.new name) = JsUndefined /\
   length (Object_keys (Channel.callbacks (Channel.new name))) = 0) /\
  (usable n h ->
   let h' := state (EventHub.publish n v h) in
   observed (EventHub.lastEvent n h') = (Normal v, []) /\
   state (EventHub.lastEvent n h') = h') /\
  (EventHub.channels h !! n = None ->
   observed (EventHub.lastEvent n h) = (Normal JsUndefined, [])).
Proof.
  split; [|split; [|split; [|split; [|split]]]].
  - by rewrite publish_state.
  - by rewrite channel_run_snoc; simpl; rewrite publish_state.
  - intros Hlast. unfold Channel.lastEvent.
    by rewrite channel_run_lastEvent, Hlast.
  - done.
  - intros Hu. destruct (hub_publish_sets_last n v h Hu) as (c' & Hc' & Hv).
    split; rewrite (hub_lastEvent_present _ _ _ Hc'); [|done].
    unfold observed, result, log, Channel.lastEvent; simpl. by rewrite Hv.
  - intros E. by apply hub_lastEvent_absent.
Qed.

Lemma last_event_is_last_published_witness :
  Channel.lastEvent
    (channel_run
       [CPublish (JsNumber 1); CPublish (JsString "x");
        CSubscribe (mkCallback 0 (fun _ => Normal tt)) true;
        CUnsubscribe (mkSubscription "test" 1)]
       (Channel.new "test")) = JsString "x" /\
  observed (EventHub.lastEvent "newest channel" EventHub.new) =
    (Normal JsUndefined, []) /\
  observed (EventHub.lastEvent "newest channel"
              (state (EventHub.publish "newest channel" (JsString "x")
                        EventHub.new))) =
    (Normal (JsString "x"), []).
Proof.
  pose proof (last_event_is_last_published "test"
    [CPublish (JsNumber 1); CPublish (JsString "x");
     CSubscribe (mkCallback 0 (fun _ => Normal tt)) true;
     CUnsubscribe (mkSubscription "test" 1)]
    (JsString "x") (Channel.new "test") EventHub.new "newest channel")
    as (_ & _ & Hlast & _ & Hhub & Hfresh).
  split; [|split].
  - apply Hlast. reflexivity.
  - apply Hfresh. reflexivity.
  - apply Hhub. left. reflexivity.
Defined.

(** C10.  If, in the fan-out of [publish(v)], the callbacks before [cb]
    return and [cb] throws [e], then the publish ends with that throw,
    the callbacks before [cb] and [cb] itself were called and none of the
    later ones, and [lastEvent] already holds [v]: reading it afterwards
    returns the value whose delivery was cut short. *)
Theorem throwing_callback_aborts_fanout c v
    (pre post : list EventCallback) cb e :
  Object_values (Channel.callbacks c) = pre ++ cb :: post ->
  forallb (returns (envelope c v)) pre = true ->
  cb_run cb (envelope c v) = Thrown e ->
  observed (Channel.publish v c) =
    (Thrown e, calls (envelope c v) (pre ++ [cb])) /\
  Channel.lastEvent (state (Channel.publish v c)) = v /\
  Channel.callbacks (state (Channel.publish v c)) = Channel.callbacks c.
Proof.
  intros Hcbs Hpre Hcb. rewrite publish_spec.
  unfold Channel.callbacks in Hcbs. rewrite Hcbs.
  destruct (reached_throw _ pre post cb e Hpre Hcb) as [-> ->].
  done.
Qed.

Lemma throwing_callback_aborts_fanout_witness :
  let boom := mkCallback 2 (fun _ => Thrown (JsString "boom")) in
  let c := channel_run
             [CSubscribe (mkCallback 1 (fun _ => Normal tt)) false;
              CSubscribe boom false;
              CSubscribe (mkCallback 3 (fun _ => Normal tt)) false]
             (Channel.new "test") in
  observed (Channel.publish (JsNumber 5) c) =
    (Thrown (JsString "boom"),
     [mkInvocation 1 (mkEventMessage "test" (JsNumber 5));
      mkInvocation 2 (mkEventMessage "test" (JsNumber 5))]) /\
  Channel.lastEvent (state (Channel.publish (JsNumber 5) c)) = JsNumber 5.
Proof.
  intros boom c.
  destruct (throwing_callback_aborts_fanout c (JsNumber 5)
              [mkCallback 1 (fun _ => Normal tt)]
              [mkCallback 3 (fun _ => Normal tt)]
              boom (JsString "boom"))
    as (Hobs & Hlast & _); [reflexivity | reflexivity | reflexivity |].
  split; [exact Hobs | exact Hlast].
Defined.

Lemma times_invoked_absent ref msg (cbs : list EventCallback) :
  Forall (fun cb' => cb_ref cb' <> ref) cbs ->
  times_invoked ref (calls msg (reached msg cbs)) = 0.
Proof.
  unfold times_invoked. induction 1 as [|cb' cbs Hne Hall IH]; [done|].
  cbn [reached calls map]. rewrite filter_cons. simpl.
  destruct (decide (cb_ref cb' = ref)); [done|].
  destruct (returns msg cb'); [exact IH | done].
Qed.

Lemma unsubscribe_twice (s : Subscription) c :
  state (Channel.unsubscribe s (state (Channel.unsubscribe s c))) =
    state (Channel.unsubscribe s c).
Proof.
  rewrite !unsubscribe_spec. unfold state, Channel.set_callbacks; simpl.
  by rewrite cl_delete_idem.
Qed.

(** C8.  Running a handle's [unsubscribe] deletes the entry under the
    handle's identifier from the channel's [_callbacks] and changes
    nothing else: every other entry stays, in place; name, retained value
    and counter stay; a publish afterwards runs over the remaining entries
    only, so it no longer calls the removed callback; running it a second
    time changes nothing.  In a hub, the set of channel names and every
    other channel are unchanged, and the call never throws. *)
Theorem unsubscribe_removes_exactly_one (s : Subscription) c v
    (h : EventHub.t) cb :
  let c' := state (Channel.unsubscribe s c) in
  let h' := state (EventHub.unsubscribe s h) in
  (Channel.callbacks c' =
     filter (fun p => p.1 <> id s) (Channel.callbacks c) /\
   cl_get (id s) (Channel.callbacks c') = None /\
   (forall k, k <> id s ->
      cl_get k (Channel.callbacks c') = cl_get k (Channel.callbacks c)) /\
   Channel.name c' = Channel.name c /\
   Channel.lastEvent c' = Channel.lastEvent c /\
   Channel._lastId c' = Channel._lastId c /\
   state (Channel.unsubscribe s c') = c') /\
  (log (Channel.publish v c') =
     calls (envelope c v)
       (reached (envelope c v)
          (Object_values
             (filter (fun p => p.1 <> id s) (Channel.callbacks c)))) /\
   ((id s, cb) ∈ Channel.callbacks c ->
    (forall k cb', k <> id s -> (k, cb') ∈ Channel.callbacks c ->
       cb_ref cb' <> cb_ref cb) ->
    times_invoked (cb_ref cb) (log (Channel.publish v c')) = 0)) /\
  (result (EventHub.unsubscribe s h) = Normal tt /\
   dom (EventHub.channels h') = dom (EventHub.channels h) /\
   (forall n, n <> sub_this s ->
      EventHub.channels h' !! n = EventHub.channels h !! n) /\
   EventHub.channels h' !! sub_this s =
     (fun c0 => state (Channel.unsubscribe s c0)) <$>
       EventHub.channels h !! sub_this s /\
   state (EventHub.unsubscribe s h') = h').
Proof.
  intros c' h'.
  assert (Hcbs : Channel._callbacks c' =
                 filter (fun p => p.1 <> id s) (Channel._callbacks c))
    by apply cl_delete_filter.
  split; [|split].
  - unfold Channel.callbacks. split_and!; try done.
    + apply cl_get_delete_eq.
    + intros k Hk. by apply cl_get_delete_ne.
    + apply unsubscribe_twice.
  - assert (Hlog : log (Channel.publish v c') =
      calls (envelope c v)
        (reached (envelope c v)
           (Object_values
              (filter (fun p => p.1 <> id s) (Channel.callbacks c))))).
    { rewrite publish_spec. unfold log, Channel.callbacks; simpl.
      by rewrite <- Hcbs. }
    split; [exact Hlog|].
    intros _ Hothers. rewrite Hlog. apply times_invoked_absent.
    unfold Object_values. apply Forall_fmap, Forall_forall.
    intros [k cb'] Hin. apply list_elem_of_filter in Hin as [Hk Hin].
    simpl in *. by apply (Hothers k).
  - unfold h', EventHub.channels, EventHub.unsubscribe, modify, state, result.
    simpl.
    destruct (EventHub._channels h !! sub_this s) as [c0|] eqn:E; simpl.
    + split_and!; try done.
      * apply dom_insert_present. by apply elem_of_dom_2 in E.
      * intros n Hn. by rewrite lookup_insert_ne.
      * by rewrite lookup_insert_eq.
      * rewrite lookup_insert_eq, insert_insert_eq.
        do 2 f_equal. apply unsubscribe_twice.
    + rewrite E. by split_and!.
Qed.

Lemma unsubscribe_removes_exactly_one_witness :
  let quiet n := mkCallback n (fun _ => Normal tt) in
  let c := channel_run [CSubscribe (quiet 10) false;
                        CSubscribe (quiet 20) false;
                        CSubscribe (quiet 30) false] (Channel.new "test") in
  let c' := state (Channel.unsubscribe (mkSubscription "test" 2) c) in
  Channel.callbacks c' = [(1, quiet 10); (3, quiet 30)] /\
  times_invoked 20 (log (Channel.publish (JsBool true) c')) = 0.
Proof.
  intros quiet c c'.
  destruct (unsubscribe_removes_exactly_one (mkSubscription "test" 2) c
              (JsBool true) EventHub.new (quiet 20))
    as ((Hcbs & _) & (_ & Hquiet) & _).
  split; [exact Hcbs|]. apply Hquiet.
  - apply list_elem_of_In. simpl. tauto.
  - intros k cb' Hk Hin. apply list_elem_of_In in Hin. simpl in Hin.
    destruct Hin as [[= <- <-]|[[= <- <-]|[[= <- <-]|[]]]]; simpl;
      [lia | done | lia].
Defined.
End Publishing.

(** ** Publishing through the hub *)

Section WildcardFanout.
Implicit Types (h : EventHub.t) (n : string) (v : JsValue)
  (ops : list HubOp).

(** When no callback throws, a hub publish is three complete fan-outs:
    the named channel's, and the wildcard channel's two times over. *)
Lemma hub_publish_returns n v h :
  hub_inv h ->
  usable n h ->
  let msgn := mkEventMessage n v in
  let msgw := mkEventMessage WildCardChannel v in
  let named := Object_values (Channel.callbacks (channel_of n h)) in
  let wild :=
    Object_values (Channel.callbacks (channel_of WildCardChannel h)) in
  forallb (returns msgn) named = true ->
  forallb (returns msgw) wild = true ->
  observed (EventHub.publish n v h) =
    (Normal tt, calls msgn named ++ calls msgw wild ++ calls msgw wild).
Proof.
  intros Hh Hu msgn msgw named wild Hn Hw.
  rewrite (hub_publish_spec n v h Hh Hu). fold msgn msgw.
  unfold Channel.callbacks in *. fold named wild.
  destruct (reached_all _ _ Hn) as [-> ->].
  by destruct (reached_all _ _ Hw) as [-> ->].
Qed.

Lemma not_usable n h :
  inherited n = true -> EventHub._channels h !! n = None -> ~ usable n h.
Proof.
  intros Hi E [Hf|[c Hc]]; congruence.
Qed.

Lemma elem_of_calls msg (cbs : list EventCallback) (i : Invocation) :
  i ∈ calls msg cbs <->
  exists cb, cb ∈ cbs /\ i = mkInvocation (cb_ref cb) msg.
Proof.
  unfold calls. rewrite list_elem_of_fmap. split.
  - intros (cb & -> & Hcb). by exists cb.
  - intros (cb & Hcb & ->). by exists cb.
Qed.

Lemma reached_elem_of msg (cbs : list EventCallback) cb :
  cb ∈ reached msg cbs -> cb ∈ cbs.
Proof.
  induction cbs as [|cb' cbs IH]; simpl; [done|].
  intros [->|Hin]%elem_of_cons; [left|].
  destruct (returns msg cb'); [right; by apply IH|].
  by apply not_elem_of_nil in Hin.
Qed.

(** C1.  With one subscriber on the wildcard channel, a single
    [publish("orders", 42)] on the hub calls that subscriber twice: the
    hub publishes on the wildcard channel in two consecutive
    statements. *)
Theorem wildcard_subscriber_called_twice :
  let cb := mkCallback 7 (fun _ => Normal tt) in
  let h := hub_run [HSubscribe WildCardChannel cb false] EventHub.new in
  observed (EventHub.publish "orders" (JsNumber 42) h) =
    (Normal tt,
     [mkInvocation 7 (mkEventMessage "*" (JsNumber 42));
      mkInvocation 7 (mkEventMessage "*" (JsNumber 42))]) /\
  times_invoked 7 (log (EventHub.publish "orders" (JsNumber 42) h)) = 2.
Proof. split; vm_compute; reflexivity. Qed.

(** C9.  The log of a hub publish on a hub reached by any history splits
    in two: first the named channel's fan-out, every call with the
    envelope [{channel: n, data: v}]; then calls of wildcard subscribers
    only, every one with the envelope [{channel: "*", data: v}], whatever
    [n] was.  When [n] is a name under which the hub has a channel or can
    create one (any name that is not a property every object inherits)
    and no callback throws, every subscriber of the named channel is in
    the first part and every wildcard subscriber in the second. *)
Theorem wildcard_envelope_names_wildcard ops n v :
  let h := hub_run ops EventHub.new in
  let msgn := mkEventMessage n v in
  let msgw := mkEventMessage WildCardChannel v in
  let named := Object_values (Channel.callbacks (channel_of n h)) in
  let wild :=
    Object_values (Channel.callbacks (channel_of WildCardChannel h)) in
  exists ln lw,
    log (EventHub.publish n v h) = ln ++ lw /\
    ln = calls msgn (reached msgn named) /\
    Forall (fun i => inv_msg i = msgw /\
                     exists cb, cb ∈ wild /\ inv_cb i = cb_ref cb) lw /\
    (usable n h ->
     forallb (returns msgn) named = true ->
     forallb (returns msgw) wild = true ->
     ln = calls msgn named /\
     forall cb, cb ∈ wild -> mkInvocation (cb_ref cb) msgw ∈ lw).
Proof.
  intros h msgn msgw named wild.
  pose proof (hub_run_inv ops) as Hh. fold h in Hh.
  destruct (usable_dec n h) as [Hu|[Hi E]]; cycle 1.
  { exists [], []. rewrite (hub_publish_unusable n v h Hi E).
    unfold named. rewrite (channel_of_unusable n h E).
    split_and!; [done|done|constructor|].
    intros Hu. by destruct (not_usable n h Hi E). }
  pose proof (hub_publish_spec n v h Hh Hu) as Hspec. cbv zeta in Hspec.
  unfold Channel.callbacks in *. fold msgn msgw named wild in Hspec.
  assert (Hlw : Forall (fun i => inv_msg i = msgw /\
                   exists cb, cb ∈ wild /\ inv_cb i = cb_ref cb)
                 (calls msgw (reached msgw wild))).
  { apply Forall_forall. intros i Hi.
    apply elem_of_calls in Hi as (cb & Hcb & ->). split; [done|].
    exists cb. split; [|done]. by eapply reached_elem_of. }
  assert (Hlog : log (EventHub.publish n v h) =
                 (observed (EventHub.publish n v h)).2) by done.
  exists (calls msgn (reached msgn named)).
  destruct (fanout_end msgn named) as [[]|e] eqn:En;
    [destruct (fanout_end msgw wild) as [[]|e] eqn:Ew|].
  - exists (calls msgw (reached msgw wild) ++ calls msgw (reached msgw wild)).
    rewrite Hlog, Hspec. split_and!; [done|done|by apply Forall_app|].
    intros _ Hn Hw. destruct (reached_all _ _ Hn) as [-> _].
    destruct (reached_all _ _ Hw) as [-> _]. split; [done|].
    intros cb Hcb. apply elem_of_app. left. apply elem_of_calls. eauto.
  - exists (calls msgw (reached msgw wild)).
    rewrite Hlog, Hspec. split_and!; [done|done|done|].
    intros _ _ Hw. destruct (reached_all _ _ Hw) as [_ Hend]. congruence.
  - exists []. rewrite Hlog, Hspec, app_nil_r.
    split_and!; [done|done|constructor|].
    intros _ Hn _. destruct (reached_all _ _ Hn) as [_ Hend]. congruence.
Qed.
Lemma wildcard_envelope_names_wildcard_witness :
  let w := mkCallback 7 (fun _ => Normal tt) in
  let o := mkCallback 8 (fun _ => Normal tt) in
  let h := hub_run [HSubscribe WildCardChannel w false;
                    HSubscribe "orders" o false] EventHub.new in
  exists ln lw,
    log (EventHub.publish "orders" (JsNumber 42) h) = ln ++ lw /\
    ln = [mkInvocation 8 (mkEventMessage "orders" (JsNumber 42))] /\
    mkInvocation 7 (mkEventMessage "*" (JsNumber 42)) ∈ lw /\
    Forall (fun i => channel (inv_msg i) = "*") lw.
Proof.
  intros w o h.
  destruct (wildcard_envelope_names_wildcard
              [HSubscribe WildCardChannel w false;
               HSubscribe "orders" o false] "orders" (JsNumber 42))
    as (ln & lw & Hlog & _ & Hall & Hcond).
  destruct Hcond as [Hln Hlw]; [by left | reflexivity | reflexivity |].
  exists ln, lw. split; [exact Hlog|]. split; [exact Hln|]. split.
  - apply (Hlw w). apply list_elem_of_In. vm_compute. left. reflexivity.
  - eapply Forall_impl; [exact Hall|]. intros i [-> _]. reflexivity.
Defined.
End WildcardFanout.

(** ** The hub's channel map *)

Section ChannelMap.
Implicit Types (h : EventHub.t) (n : string) (v : JsValue)
  (ops : list HubOp).

Lemma size_after_naming n (m m' : gmap string Channel.t) :
  dom m' = dom m ∪ (if inherited n then ∅ else {[n]}) ->
  size m' =
    if inherited n then size m
    else if decide (n ∈ dom m) then size m else S (size m).
Proof.
  intros Hdom. rewrite <- !size_dom, Hdom. destruct (inherited n).
  - by rewrite (right_id_L ∅ (∪)).
  - case_decide as Hn.
    + f_equal. rewrite (comm_L (∪)).
      by apply subseteq_union_1_L, singleton_subseteq_l.
    + rewrite size_union by (by apply disjoint_singleton_r).
      rewrite size_singleton. lia.
Qed.

Lemma names_created_snoc ops op :
  names_created (ops ++ [op]) = names_created ops ∪ names_created [op].
Proof. unfold names_created. by rewrite omap_app, list_to_set_app_L. Qed.

Lemma hub_step_dom h op :
  dom (EventHub.channels (hub_step h op)) =
    dom (EventHub.channels h) ∪ names_created [op].
Proof.
  unfold EventHub.channels, names_created.
  destruct op as [n cb replay|s|n v|n]; simpl.
  - rewrite subscribe_dom. destruct (inherited n); simpl; [done|].
    by rewrite (right_id_L ∅ (∪)).
  - rewrite unsubscribe_dom. by rewrite (right_id_L ∅ (∪)).
  - rewrite publish_dom. destruct (inherited n); simpl; [done|].
    by rewrite (right_id_L ∅ (∪)).
  - rewrite lastEvent_dom. destruct (inherited n); simpl; [done|].
    by rewrite (right_id_L ∅ (∪)).
Qed.

Lemma hub_run_dom ops :
  dom (EventHub.channels (hub_run ops EventHub.new)) =
    {[WildCardChannel]} ∪ names_created ops.
Proof.
  induction ops as [|op ops IH] using rev_ind.
  - unfold names_created, EventHub.channels; simpl.
    by rewrite dom_singleton_L, (right_id_L ∅ (∪)).
  - rewrite hub_run_snoc, hub_step_dom, IH, names_created_snoc.
    by rewrite (assoc_L (∪)).
Qed.

Lemma names_created_own ops n :
  n ∈ names_created ops -> inherited n = false.
Proof.
  unfold names_created. rewrite elem_of_list_to_set, list_elem_of_omap.
  intros (op & _ & Hop).
  destruct op as [m ? ?|?|m ?|m]; try done;
    destruct (inherited m) eqn:Hm; by simplify_eq.
Qed.

Lemma hub_dom_own ops n :
  n ∈ dom (EventHub._channels (hub_run ops EventHub.new)) ->
  inherited n = false.
Proof.
  pose proof (hub_run_dom ops) as Hdom. unfold EventHub.channels in Hdom.
  rewrite Hdom. intros [->%elem_of_singleton|Hin]%elem_of_union; [done|].
  by eapply names_created_own.
Qed.

(** C6.  On a new hub, [lastEvent("constructor")] returns [undefined]
    and creates no channel, and [subscribe("toString", cb)] and
    [publish("toString", 1)] throw a [TypeError] and create no channel:
    the hub still holds the wildcard channel only.  The guard
    [!this._channels[channel]] reads an inherited property of the plain
    object, finds it truthy and skips the creation. *)
Theorem inherited_name_gets_no_channel :
  let cb := mkCallback 1 (fun _ => Normal tt) in
  size (EventHub.channels EventHub.new) = 1 /\
  (observed (EventHub.lastEvent "constructor" EventHub.new) =
     (Normal JsUndefined, []) /\
   size (EventHub.channels
           (state (EventHub.lastEvent "constructor" EventHub.new))) = 1) /\
  (observed (EventHub.subscribe "toString" cb false EventHub.new) =
     (Thrown TypeError, []) /\
   size (EventHub.channels
           (state (EventHub.subscribe "toString" cb false EventHub.new)))
     = 1) /\
  (observed (EventHub.publish "toString" (JsNumber 1) EventHub.new) =
     (Thrown TypeError, []) /\
   size (EventHub.channels
           (state (EventHub.publish "toString" (JsNumber 1) EventHub.new)))
     = 1).
Proof. intros cb. repeat split; vm_compute; reflexivity. Qed.

(** X18.  On a hub reached by any history, a call naming a property every
    object inherits gets to no channel and leaves the hub as it is:
    subscribe and publish throw a [TypeError] without calling anyone, and
    lastEvent returns [undefined]. *)
Theorem inherited_names_reach_no_channel ops n v cb replay :
  let h := hub_run ops EventHub.new in
  inherited n = true ->
  EventHub.subscribe n cb replay h = (Thrown TypeError, h, []) /\
  EventHub.publish n v h = (Thrown TypeError, h, []) /\
  EventHub.lastEvent n h = (Normal JsUndefined, h, []).
Proof.
  intros h Hi.
  assert (E : EventHub._channels h !! n = None).
  { pose proof (hub_dom_own ops n) as Hdom. fold h in Hdom.
    apply not_elem_of_dom. intros Hin. apply Hdom in Hin. congruence. }
  split_and!.
  - unfold EventHub.subscribe. by apply routed_unusable.
  - by apply hub_publish_unusable.
  - unfold EventHub.lastEvent, bind. rewrite ensure_unusable by done.
    unfold EventHub.read_lastEvent. by rewrite E, Hi.
Qed.

Lemma inherited_names_reach_no_channel_witness :
  let quiet := mkCallback 1 (fun _ => Normal tt) in
  let h := hub_run [HSubscribe WildCardChannel quiet false;
                    HPublish "toString" (JsNumber 1)] EventHub.new in
  EventHub.subscribe "toString" quiet true h = (Thrown TypeError, h, []) /\
  EventHub.lastEvent "toString" h = (Normal JsUndefined, h, []).
Proof.
  intros quiet h.
  destruct (inherited_names_reach_no_channel
              [HSubscribe WildCardChannel quiet false;
               HPublish "toString" (JsNumber 1)]
              "toString" (JsNumber 1) quiet true)
    as (Hsub & _ & Hlast); [reflexivity|].
  split; [exact Hsub | exact Hlast].
Defined.

(** X17.  A new hub holds exactly one channel, under ["*"].  A subscribe,
    publish or lastEvent call naming [n] leaves the hub with the names it
    had, plus [n] unless [n] is a property every object inherits: one
    entry more if [n] is not inherited and was not there, the same number
    otherwise.  An unsubscribe leaves the names as they are.  So after any
    history the names are ["*"] and the names the history subscribed to,
    published on or read that are not inherited, and no name is ever
    lost. *)
Theorem channel_created_once_per_own_name ops h n v cb replay
    (s : Subscription) op :
  let count (x : EventHub.t) := size (EventHub.channels x) in
  let names (x : EventHub.t) := dom (EventHub.channels x) in
  let added : gset string := if inherited n then ∅ else {[n]} in
  let grown :=
    if inherited n then count h
    else if decide (n ∈ names h) then count h else S (count h) in
  (names EventHub.new = {[WildCardChannel]} /\ count EventHub.new = 1) /\
  (names (state (EventHub.subscribe n cb replay h)) = names h ∪ added /\
   count (state (EventHub.subscribe n cb replay h)) = grown) /\
  (names (state (EventHub.publish n v h)) = names h ∪ added /\
   count (state (EventHub.publish n v h)) = grown) /\
  (names (state (EventHub.lastEvent n h)) = names h ∪ added /\
   count (state (EventHub.lastEvent n h)) = grown) /\
  (names (state (EventHub.unsubscribe s h)) = names h /\
   count (state (EventHub.unsubscribe s h)) = count h) /\
  names (hub_run ops EventHub.new) =
    {[WildCardChannel]} ∪ names_created ops /\
  names h ⊆ names (hub_step h op).
Proof.
  intros count names added grown.
  unfold count, names, added, grown, EventHub.channels.
  split_and!.
  - simpl. apply dom_singleton_L.
  - simpl. apply map_size_singleton.
  - apply subscribe_dom.
  - apply size_after_naming, subscribe_dom.
  - apply publish_dom.
  - apply size_after_naming, publish_dom.
  - apply lastEvent_dom.
  - apply size_after_naming, lastEvent_dom.
  - apply unsubscribe_dom.
  - by rewrite <- !size_dom, unsubscribe_dom.
  - apply hub_run_dom.
  - pose proof (hub_step_dom h op) as Hstep.
    unfold EventHub.channels in Hstep. rewrite Hstep.
    apply union_subseteq_l.
Qed.
End ChannelMap.

(** * Further properties of the engine *)

(** ** A channel's subscribers over time *)

Section Subscribers.
Implicit Types (c : Channel.t) (cb : EventCallback) (v : JsValue)
  (ops : list ChannelOp) (l : CallbackList).

Lemma reached_app_returns msg (pre rest : list EventCallback) :
  forallb (returns msg) pre = true ->
  reached msg (pre ++ rest) = pre ++ reached msg rest.
Proof.
  induction pre as [|p pre IH]; simpl; [done|].
  intros [-> Hpre]%andb_prop. by rewrite IH.
Qed.

Lemma cl_delete_snoc i cb l :
  i ∉ Object_keys l -> cl_delete i (l ++ [(i, cb)]) = l.
Proof.
  unfold Object_keys. induction l as [|[k c0] l IH]; simpl; intros H.
  - by destruct (decide (i = i)).
  - apply not_elem_of_cons in H as [Hne Hl].
    destruct (decide (k = i)); [congruence|]. by rewrite IH.
Qed.

Lemma length_filter_ne (ks : list nat) i :
  NoDup ks -> i ∈ ks ->
  length (filter (fun k => k <> i) ks) = pred (length ks).
Proof.
  induction 1 as [|k ks Hk Hnd IH]; intros Hin.
  - by apply not_elem_of_nil in Hin.
  - rewrite filter_cons. simpl. destruct (decide (k <> i)) as [Hne|Heq].
    + apply elem_of_cons in Hin as [->|Hin]; [done|].
      simpl. rewrite IH by done. destruct ks; [|done].
      by apply not_elem_of_nil in Hin.
    + assert (k = i) as -> by (destruct (decide (k = i)); [done|by elim Heq]).
      f_equal. clear IH Hin Hnd. induction ks as [|k' ks IH]; [done|].
      apply not_elem_of_cons in Hk as [Hne Hk].
      rewrite filter_cons.
      destruct (decide (k' <> i)) as [_|Hn]; [|elim Hn; congruence].
      simpl. by rewrite IH.
Qed.

Lemma reachable_keys_below name ops :
  let c := channel_run ops (Channel.new name) in
  S (Channel._lastId c) ∉ Object_keys (Channel._callbacks c).
Proof.
  intros c. destruct (channel_run_inv ops _ (channel_inv_new name)) as [_ Hb].
  fold c in Hb. intros Hin. rewrite Forall_forall in Hb.
  specialize (Hb _ Hin). lia.
Qed.

(** X1.  A subscribe is not a publish: it leaves the retained value and
    the name as they were, it calls nobody but the new callback, at most
    once and with the retained value under the channel's name, and it
    calls nobody at all when [replay] is off or the retained value is
    falsy. *)
Theorem subscribe_is_not_a_publish cb replay c :
  Channel.lastEvent (state (Channel.subscribe cb replay c)) =
    Channel.lastEvent c /\
  Channel.name (state (Channel.subscribe cb replay c)) = Channel.name c /\
  length (log (Channel.subscribe cb replay c)) <= 1 /\
  (forall i, i ∈ log (Channel.subscribe cb replay c) ->
     i = mkInvocation (cb_ref cb)
           (mkEventMessage (Channel.name c) (Channel.lastEvent c))) /\
  (replay = false -> log (Channel.subscribe cb replay c) = []) /\
  (truthy (Channel.lastEvent c) = false ->
   log (Channel.subscribe cb replay c) = []).
Proof.
  rewrite subscribe_state, replay_log. split_and!; try done.
  - destruct (replay && truthy _); simpl; lia.
  - intros i. destruct (replay && truthy _); [|by intros ?%not_elem_of_nil].
    by intros ->%list_elem_of_singleton.
  - by intros ->.
  - intros ->. by rewrite andb_false_r.
Qed.

Lemma subscribe_is_not_a_publish_witness :
  let cb := mkCallback 4 (fun _ => Normal tt) in
  let c := channel_run [CPublish (JsNumber 0)] (Channel.new "test") in
  log (Channel.subscribe cb false c) = [] /\
  log (Channel.subscribe cb true c) = [] /\
  forall i, i ∈ log (Channel.subscribe cb true
                       (channel_run [CPublish (JsNumber 3)] c)) ->
    i = mkInvocation 4 (mkEventMessage "test" (JsNumber 3)).
Proof.
  intros cb c.
  destruct (subscribe_is_not_a_publish cb false c)
    as (_ & _ & _ & _ & Hoff & _).
  destruct (subscribe_is_not_a_publish cb true c)
    as (_ & _ & _ & _ & _ & Hfalsy).
  destruct (subscribe_is_not_a_publish cb true
              (channel_run [CPublish (JsNumber 3)] c))
    as (_ & _ & _ & Honly & _ & _).
  split; [by apply Hoff|]. split; [by apply Hfalsy|]. exact Honly.
Defined.

(** X2.  On a channel reached by any history, a new subscriber goes to the
    end of the fan-out: the callbacks a publish runs over are the earlier
    ones, in their order, then the new one; when the earlier ones return,
    a publish calls them as before and then calls the new one. *)
Theorem new_subscriber_is_called_last name ops cb replay v :
  let c := channel_run ops (Channel.new name) in
  let c' := state (Channel.subscribe cb replay c) in
  Object_values (Channel.callbacks c') =
    Object_values (Channel.callbacks c) ++ [cb] /\
  (forallb (returns (mkEventMessage name v))
     (Object_values (Channel.callbacks c)) = true ->
   log (Channel.publish v c') =
     log (Channel.publish v c) ++
     [mkInvocation (cb_ref cb) (mkEventMessage name v)]).
Proof.
  intros c c'.
  pose proof (channel_run_inv ops _ (channel_inv_new name)) as Hinv.
  fold c in Hinv.
  assert (Hname : Channel._name c = name)
    by (unfold c; by rewrite channel_run_name).
  assert (Hcbs : Channel._callbacks c' =
                 Channel._callbacks c ++ [(S (Channel._lastId c), cb)]).
  { unfold c'. rewrite subscribe_state. by apply subscribed_callbacks. }
  assert (Hvals : Object_values (Channel._callbacks c') =
                  Object_values (Channel._callbacks c) ++ [cb]).
  { unfold Object_values. by rewrite Hcbs, fmap_app. }
  unfold Channel.callbacks. split; [exact Hvals|].
  - intros Hall. rewrite !publish_spec. unfold log; simpl.
    assert (Henv : envelope c' v = mkEventMessage name v).
    { unfold envelope, c'. by rewrite subscribe_state; simpl; rewrite Hname. }
    assert (Henv0 : envelope c v = mkEventMessage name v)
      by (unfold envelope; by rewrite Hname).
    rewrite Henv, Henv0, Hvals.
    rewrite (reached_app_returns _ _ _ Hall).
    destruct (reached_all _ _ Hall) as [-> _].
    unfold calls. rewrite List.map_app. simpl.
    by destruct (returns _ cb).
Qed.

Lemma new_subscriber_is_called_last_witness :
  let quiet n := mkCallback n (fun _ => Normal tt) in
  let c := channel_run [CSubscribe (quiet 1) false; CSubscribe (quiet 2) false]
             (Channel.new "test") in
  log (Channel.publish (JsBool true)
         (state (Channel.subscribe (quiet 3) false c))) =
    log (Channel.publish (JsBool true) c) ++
    [mkInvocation 3 (mkEventMessage "test" (JsBool true))].
Proof.
  intros quiet c.
  apply (proj2 (new_subscriber_is_called_last "test"
    [CSubscribe (quiet 1) false; CSubscribe (quiet 2) false]
    (quiet 3) false (JsBool true))).
  reflexivity.
Defined.
Lemma unsubscribe_callbacks (s : Subscription) c :
  Channel._callbacks (state (Channel.unsubscribe s c)) =
    cl_delete (id s) (Channel._callbacks c).
Proof. done. Qed.

Lemma subscribe_handle cb replay c (s : Subscription) :
  result (Channel.subscribe cb replay c) = Normal s ->
  s = mkSubscription (Channel._name c) (S (Channel._lastId c)).
Proof.
  destruct (subscribe_result cb replay c) as [->|[e ->]]; [|done].
  by intros [= <-].
Qed.

(** X3.  On a channel reached by any history, subscribing and then running
    the returned handle's [unsubscribe] gives back the subscribers as they
    were, entry for entry; the retained value is untouched and the counter
    stays advanced, so the identifier is not handed out again. *)
Theorem subscribe_then_unsubscribe_restores name ops cb replay
    (s : Subscription) :
  let c := channel_run ops (Channel.new name) in
  let c' := state (Channel.unsubscribe s
                     (state (Channel.subscribe cb replay c))) in
  result (Channel.subscribe cb replay c) = Normal s ->
  Channel.callbacks c' = Channel.callbacks c /\
  Channel.lastEvent c' = Channel.lastEvent c /\
  Channel._lastId c' = S (Channel._lastId c) /\
  id s = S (subscribe_count ops).
Proof.
  intros c c' ->%subscribe_handle.
  pose proof (channel_run_inv ops _ (channel_inv_new name)) as Hinv.
  fold c in Hinv. unfold c'.
  rewrite subscribe_state.
  unfold Channel.callbacks, Channel.lastEvent.
  split_and!; try done.
  - rewrite unsubscribe_callbacks, subscribed_callbacks by done.
    apply cl_delete_snoc, reachable_keys_below.
  - simpl. unfold c. by rewrite channel_run_lastId.
Qed.

Lemma subscribe_then_unsubscribe_restores_witness :
  let quiet n := mkCallback n (fun _ => Normal tt) in
  let ops := [CSubscribe (quiet 1) false; CPublish (JsNumber 9);
              CSubscribe (quiet 2) false] in
  let c := channel_run ops (Channel.new "test") in
  Channel.callbacks
    (state (Channel.unsubscribe (mkSubscription "test" 3)
              (state (Channel.subscribe (quiet 3) true c)))) =
    Channel.callbacks c.
Proof.
  intros quiet ops c.
  apply (subscribe_then_unsubscribe_restores "test" ops (quiet 3) true
           (mkSubscription "test" 3)).
  reflexivity.
Defined.

(** X4.  When the replayed callback throws, the subscribe ends with that
    throw and hands out no handle, yet the callback is already stored
    under the new identifier, the counter has moved on, and later
    publishes run over it. *)
Theorem throwing_replay_leaves_callback_registered name ops cb e :
  let c := channel_run ops (Channel.new name) in
  let c' := state (Channel.subscribe cb true c) in
  truthy (Channel.lastEvent c) = true ->
  cb_run cb (mkEventMessage name (Channel.lastEvent c)) = Thrown e ->
  result (Channel.subscribe cb true c) = Thrown e /\
  cl_get (S (subscribe_count ops)) (Channel.callbacks c') = Some cb /\
  Channel._lastId c' = S (subscribe_count ops) /\
  Object_values (Channel.callbacks c') =
    Object_values (Channel.callbacks c) ++ [cb].
Proof.
  intros c c' Htruthy Hthrow.
  pose proof (channel_run_inv ops _ (channel_inv_new name)) as Hinv.
  fold c in Hinv.
  assert (Hname : Channel._name c = name)
    by (unfold c; by rewrite channel_run_name).
  assert (Hid : Channel._lastId c = subscribe_count ops)
    by (unfold c; by rewrite channel_run_lastId).
  assert (Hcbs : Channel._callbacks c' =
                 Channel._callbacks c ++ [(S (Channel._lastId c), cb)]).
  { unfold c'. rewrite subscribe_state. by apply subscribed_callbacks. }
  unfold Channel.callbacks, Channel.lastEvent in *. split_and!.
  - rewrite subscribe_spec. cbv zeta. unfold envelope.
    rewrite Htruthy, Hname, Hthrow. done.
  - rewrite Hcbs, <- Hid. apply cl_get_snoc_eq, reachable_keys_below.
  - unfold c'. rewrite subscribe_state. simpl. by rewrite Hid.
  - unfold Object_values. by rewrite Hcbs, fmap_app.
Qed.

Lemma throwing_replay_leaves_callback_registered_witness :
  let boom := mkCallback 5 (fun _ => Thrown (JsString "boom")) in
  let c := channel_run [CPublish (JsString "hello")] (Channel.new "test") in
  result (Channel.subscribe boom true c) = Thrown (JsString "boom") /\
  cl_get 1 (Channel.callbacks (state (Channel.subscribe boom true c))) =
    Some boom.
Proof.
  intros boom c.
  destruct (throwing_replay_leaves_callback_registered "test"
              [CPublish (JsString "hello")] boom (JsString "boom"))
    as (Hres & Hget & _); [reflexivity | reflexivity |].
  split; [exact Hres | exact Hget].
Defined.

(** X5.  Identifiers are not reused, so an old handle cannot remove a
    later subscriber: after any history, a handle whose identifier is one
    of those handed out so far, run after a further subscribe, leaves the
    new callback stored under its own identifier. *)
Theorem stale_handle_is_harmless name ops cb replay (s : Subscription) :
  let c := channel_run ops (Channel.new name) in
  let c' := state (Channel.unsubscribe s
                     (state (Channel.subscribe cb replay c))) in
  id s <= subscribe_count ops ->
  cl_get (S (subscribe_count ops)) (Channel.callbacks c') = Some cb.
Proof.
  intros c c' Hold.
  pose proof (channel_run_inv ops _ (channel_inv_new name)) as Hinv.
  fold c in Hinv.
  assert (Hid : Channel._lastId c = subscribe_count ops)
    by (unfold c; by rewrite channel_run_lastId).
  unfold c', Channel.callbacks.
  rewrite subscribe_state, unsubscribe_callbacks. simpl id.
  rewrite cl_get_delete_ne by lia.
  rewrite subscribed_callbacks by done. rewrite <- Hid.
  apply cl_get_snoc_eq, reachable_keys_below.
Qed.

Lemma stale_handle_is_harmless_witness :
  let quiet n := mkCallback n (fun _ => Normal tt) in
  let ops := [CSubscribe (quiet 1) false;
              CUnsubscribe (mkSubscription "test" 1)] in
  cl_get 2
    (Channel.callbacks
       (state (Channel.unsubscribe (mkSubscription "test" 1)
                 (state (Channel.subscribe (quiet 2) false
                           (channel_run ops (Channel.new "test")))))))
    = Some (quiet 2).
Proof.
  intros quiet ops.
  apply (stale_handle_is_harmless "test" ops (quiet 2) false
           (mkSubscription "test" 1)).
  vm_compute. lia.
Defined.

(** X6.  The number of subscribers of a channel reached by any history
    goes up by exactly one with every subscribe, also of a callback that
    is subscribed already, and down by exactly one with an unsubscribe
    whose identifier is in use; an unsubscribe whose identifier is not in
    use leaves it as it is. *)
Theorem subscriber_count_changes_by_one name ops cb replay
    (s : Subscription) :
  let c := channel_run ops (Channel.new name) in
  length (Channel.callbacks (state (Channel.subscribe cb replay c))) =
    S (length (Channel.callbacks c)) /\
  length (Channel.callbacks (state (Channel.unsubscribe s c))) =
    (if decide (id s ∈ Object_keys (Channel.callbacks c))
     then pred (length (Channel.callbacks c))
     else length (Channel.callbacks c)).
Proof.
  intros c.
  pose proof (channel_run_inv ops _ (channel_inv_new name)) as Hinv.
  fold c in Hinv. unfold Channel.callbacks. split.
  - rewrite subscribe_state, subscribed_callbacks by done.
    rewrite length_app. simpl. lia.
  - rewrite unsubscribe_spec. unfold state; simpl. case_decide as Hin.
    + rewrite <- (length_fmap fst (cl_delete _ _)).
      rewrite <- (length_fmap fst (Channel._callbacks c)).
      fold (Object_keys (cl_delete (id s) (Channel._callbacks c))).
      fold (Object_keys (Channel._callbacks c)).
      rewrite cl_delete_keys. apply length_filter_ne; [|done].
      apply StronglySorted_lt_NoDup. by destruct Hinv.
    + by rewrite cl_delete_absent.
Qed.
End Subscribers.

(** ** Channels side by side in a hub *)

Section HubChannels.
Implicit Types (h : EventHub.t) (n m : string) (c : Channel.t)
  (v : JsValue) (cb : EventCallback) (ops : list HubOp).

Lemma on_channel_other {A} n m (f : Eff Channel.t A) h :
  m <> n ->
  EventHub._channels (state (EventHub.on_channel n f h)) !! m =
    EventHub._channels h !! m.
Proof.
  intros Hne. unfold EventHub.on_channel.
  destruct (EventHub._channels h !! n) as [c|]; [|done].
  destruct (f c) as [[r c'] l]. unfold state; simpl.
  by rewrite lookup_insert_ne.
Qed.

Lemma ensure_other n m h :
  m <> n ->
  EventHub._channels (state (EventHub.ensure n h)) !! m =
    EventHub._channels h !! m.
Proof.
  intros Hne. destruct (usable_dec n h) as [Hu|[Hi E]].
  - rewrite ensure_spec by done. unfold state; simpl.
    by rewrite lookup_insert_ne.
  - by rewrite ensure_unusable.
Qed.

(** Where a routed call leaves its channel, and what shows of it. *)
Lemma routed_state {A} n (f : Eff Channel.t A) h :
  usable n h ->
  EventHub._channels
    (state (bind (EventHub.ensure n) (fun _ => EventHub.on_channel n f) h)) =
    <[n := state (f (channel_of n h))]> (EventHub._channels h).
Proof. intros Hu. rewrite routed by done. by destruct (f _) as [[r c'] l]. Qed.

Lemma routed_observed {A} n (f : Eff Channel.t A) h :
  usable n h ->
  observed (bind (EventHub.ensure n) (fun _ => EventHub.on_channel n f) h) =
    observed (f (channel_of n h)).
Proof. intros Hu. rewrite routed by done. by destruct (f _) as [[r c'] l]. Qed.

(** X7.  A hub call naming [n] leaves every other channel as it is:
    subscribe and lastEvent touch no channel but [n], and publish touches
    no channel but [n] and the wildcard channel. *)
Theorem hub_calls_leave_other_channels_alone h n m v cb replay :
  m <> n ->
  EventHub.channels (state (EventHub.subscribe n cb replay h)) !! m =
    EventHub.channels h !! m /\
  EventHub.channels (state (EventHub.lastEvent n h)) !! m =
    EventHub.channels h !! m /\
  (m <> WildCardChannel ->
   EventHub.channels (state (EventHub.publish n v h)) !! m =
     EventHub.channels h !! m).
Proof.
  intros Hne. unfold EventHub.channels. split_and!.
  - unfold EventHub.subscribe. rewrite bind_ensure_state.
    by rewrite on_channel_other, ensure_other.
  - by rewrite lastEvent_state, ensure_other.
  - intros Hw.
    assert (Hkeep : forall k, m <> k ->
      preserves (fun h' => EventHub._channels h' !! m =
                           EventHub._channels h !! m)
        (EventHub.on_channel k (Channel.publish v))).
    { intros k Hk h' Hh'. by rewrite on_channel_other. }
    apply (preserves_bind
             (fun h' => EventHub._channels h' !! m =
                        EventHub._channels h !! m)); [| |done].
    + intros h' Hh'. by rewrite ensure_other.
    + intros _. repeat (apply preserves_bind; [|intros _]);
        by apply Hkeep.
Qed.

Lemma hub_calls_leave_other_channels_alone_witness :
  let quiet := mkCallback 1 (fun _ => Normal tt) in
  let h := hub_run [HSubscribe "users" quiet false;
                    HPublish "users" (JsString "x")] EventHub.new in
  EventHub.channels (state (EventHub.publish "orders" (JsNumber 42) h))
    !! "users" = EventHub.channels h !! "users".
Proof.
  intros quiet h.
  destruct (hub_calls_leave_other_channels_alone h "orders" "users"
              (JsNumber 42) quiet false) as (_ & _ & Hpub); [done|].
  by apply Hpub.
Defined.

Lemma times_invoked_app ref (l1 l2 : list Invocation) :
  times_invoked ref (l1 ++ l2) = times_invoked ref l1 + times_invoked ref l2.
Proof. unfold times_invoked. by rewrite filter_app, length_app. Qed.

Lemma times_invoked_calls ref msg (cbs : list EventCallback) :
  times_invoked ref (calls msg cbs) = count_ref ref cbs.
Proof.
  unfold times_invoked, count_ref, calls.
  induction cbs as [|cb cbs IH]; [done|].
  simpl. rewrite !filter_cons. simpl.
  destruct (decide (cb_ref cb = ref)); simpl; by rewrite IH.
Qed.

(** X8.  On a hub reached by any history, when no callback throws, a
    callback that is not subscribed on the wildcard channel is called by
    a publish on [n] once for each of its subscriptions on [n]: once if
    it is subscribed there once, not at all if it is not subscribed
    there, whatever other channels it is subscribed on. *)
Theorem named_subscriber_called_once_per_subscription ops n v ref :
  let h := hub_run ops EventHub.new in
  let named := Object_values (Channel.callbacks (channel_of n h)) in
  let wild :=
    Object_values (Channel.callbacks (channel_of WildCardChannel h)) in
  forallb (returns (mkEventMessage n v)) named = true ->
  forallb (returns (mkEventMessage WildCardChannel v)) wild = true ->
  count_ref ref wild = 0 ->
  times_invoked ref (log (EventHub.publish n v h)) = count_ref ref named.
Proof.
  intros h named wild Hn Hw Hnone.
  destruct (usable_dec n h) as [Hu|[Hi E]].
  - pose proof (hub_publish_returns n v h (hub_run_inv ops) Hu Hn Hw) as Hobs.
    assert (Hlog : log (EventHub.publish n v h) =
                   (observed (EventHub.publish n v h)).2) by done.
    rewrite Hlog, Hobs. simpl. fold named wild.
    rewrite !times_invoked_app, !times_invoked_calls, Hnone. lia.
  - rewrite (hub_publish_unusable n v h Hi E).
    unfold named. by rewrite (channel_of_unusable n h E).
Qed.

Lemma named_subscriber_called_once_per_subscription_witness :
  let quiet (k : nat) := mkCallback k (fun _ => Normal tt) in
  let h := hub_run [HSubscribe "test" (quiet 1) false;
                    HSubscribe "another" (quiet 1) false;
                    HSubscribe WildCardChannel (quiet 2) false]
             EventHub.new in
  times_invoked 1 (log (EventHub.publish "test" (JsBool true) h)) = 1.
Proof.
  intros quiet h.
  apply (named_subscriber_called_once_per_subscription
           [HSubscribe "test" (quiet 1) false;
            HSubscribe "another" (quiet 1) false;
            HSubscribe WildCardChannel (quiet 2) false]
           "test" (JsBool true) 1); reflexivity.
Defined.
Lemma named_publish_step n v h :
  hub_inv h ->
  let h1 := EventHub.mk (<[n := channel_of n h]> (EventHub._channels h)) in
  let msgn := mkEventMessage n v in
  let named := Object_values (Channel._callbacks (channel_of n h)) in
  EventHub.on_channel n (Channel.publish v) h1 =
    (fanout_end msgn named,
     EventHub.mk (<[n := Channel.set_lastEvent v (channel_of n h)]>
                    (EventHub._channels h)),
     calls msgn (reached msgn named)).
Proof.
  intros Hh h1 msgn named. unfold h1.
  erewrite on_channel_present by apply lookup_insert_eq.
  rewrite publish_spec. unfold envelope.
  rewrite (channel_of_name n h Hh). simpl. by rewrite insert_insert_eq.
Qed.

Lemma subscribed_name_usable n h (pre post : list EventCallback) cb :
  Object_values (Channel._callbacks (channel_of n h)) = pre ++ cb :: post ->
  usable n h.
Proof.
  intros Hcbs. right. unfold channel_of in Hcbs.
  destruct (EventHub._channels h !! n) as [c|]; [by eexists|].
  simpl in Hcbs. by destruct pre.
Qed.

(** X9.  On a hub reached by any history, when a subscriber of the named
    channel (other than the wildcard channel) throws, the hub publish ends
    with that throw after the named channel's callbacks up to the thrower;
    no wildcard subscriber is called and the wildcard channel is left as
    it was, retained value included, while the named channel already
    retains the value. *)
Theorem throwing_named_subscriber_starves_wildcard ops n v
    (pre post : list EventCallback) cb e :
  let h := hub_run ops EventHub.new in
  let msgn := mkEventMessage n v in
  let h' := state (EventHub.publish n v h) in
  n <> WildCardChannel ->
  Object_values (Channel.callbacks (channel_of n h)) = pre ++ cb :: post ->
  forallb (returns msgn) pre = true ->
  cb_run cb msgn = Thrown e ->
  observed (EventHub.publish n v h) = (Thrown e, calls msgn (pre ++ [cb])) /\
  EventHub.channels h' !! WildCardChannel =
    EventHub.channels h !! WildCardChannel /\
  observed (EventHub.lastEvent n h') = (Normal v, []).
Proof.
  intros h msgn h' Hn Hcbs Hpre Hcb.
  pose proof (hub_run_inv ops) as Hh. fold h in Hh.
  unfold Channel.callbacks, EventHub.channels in *.
  destruct (reached_throw _ pre post cb e Hpre Hcb) as [Hreached Hend].
  pose proof (subscribed_name_usable n h pre post cb Hcbs) as Hu.
  split_and!.
  - rewrite (hub_publish_spec n v h Hh Hu). fold msgn.
    by rewrite Hcbs, Hend, Hreached.
  - unfold h', EventHub.publish. rewrite bind_state, ensure_spec by done.
    cbn [result state fst snd]. rewrite bind_state.
    rewrite (named_publish_step n v h Hh). fold msgn.
    cbn [result state fst snd]. rewrite Hcbs, Hend. simpl.
    by rewrite lookup_insert_ne.
  - destruct (hub_publish_sets_last n v h Hu) as (c' & Hc' & Hv).
    fold h' in Hc'. rewrite (hub_lastEvent_present _ _ _ Hc').
    unfold observed, result, log, Channel.lastEvent; simpl. by rewrite Hv.
Qed.

Lemma throwing_named_subscriber_starves_wildcard_witness :
  let boom := mkCallback 1 (fun _ => Thrown (JsString "boom")) in
  let quiet := mkCallback 2 (fun _ => Normal tt) in
  let h := hub_run [HSubscribe "orders" boom false;
                    HSubscribe WildCardChannel quiet false] EventHub.new in
  observed (EventHub.publish "orders" (JsNumber 42) h) =
    (Thrown (JsString "boom"),
     [mkInvocation 1 (mkEventMessage "orders" (JsNumber 42))]) /\
  observed (EventHub.lastEvent "orders"
              (state (EventHub.publish "orders" (JsNumber 42) h))) =
    (Normal (JsNumber 42), []).
Proof.
  intros boom quiet h.
  destruct (throwing_named_subscriber_starves_wildcard
              [HSubscribe "orders" boom false;
               HSubscribe WildCardChannel quiet false]
              "orders" (JsNumber 42) [] [] boom (JsString "boom"))
    as (Hobs & _ & Hlast); [done | reflexivity | reflexivity | reflexivity |].
  split; [exact Hobs | exact Hlast].
Defined.

Lemma wildcard_publish_sets_last v h :
  is_Some (EventHub._channels h !! WildCardChannel) ->
  retains WildCardChannel v
    (state (EventHub.on_channel WildCardChannel (Channel.publish v) h)).
Proof.
  intros [cw Hw]. erewrite on_channel_present by exact Hw.
  rewrite publish_spec. unfold retains, state; simpl.
  rewrite lookup_insert_eq. by eexists.
Qed.

(** X10.  On a hub reached by any history, after a publish on a channel
    name that is not a property every object inherits, during which the
    named channel's callbacks return, the wildcard channel retains the
    published value (also when a wildcard subscriber throws):
    [lastEvent("*")] returns the value last published under such a name. *)
Theorem wildcard_retains_value_published_anywhere ops n v :
  let h := hub_run ops EventHub.new in
  let h' := state (EventHub.publish n v h) in
  inherited n = false ->
  forallb (returns (mkEventMessage n v))
    (Object_values (Channel.callbacks (channel_of n h))) = true ->
  observed (EventHub.lastEvent WildCardChannel h') = (Normal v, []) /\
  observed (EventHub.lastEvent n h') = (Normal v, []).
Proof.
  intros h h' Hown Hall.
  assert (Hu : usable n h) by by left.
  pose proof (hub_run_inv ops) as Hh. fold h in Hh.
  unfold Channel.callbacks in Hall.
  destruct (reached_all _ _ Hall) as [_ Hend].
  assert (Hret : retains WildCardChannel v h').
  { unfold h', EventHub.publish. rewrite bind_state, ensure_spec by done.
    cbn [result state fst snd]. rewrite bind_state.
    rewrite (named_publish_step n v h Hh). cbn [result state fst snd].
    rewrite Hend. set (h2 := EventHub.mk _).
    assert (Hh2 : hub_inv h2).
    { apply hub_inv_insert; [done|]. simpl. by apply channel_of_name. }
    rewrite bind_state.
    pose proof (wildcard_publish_sets_last v h2 (proj1 Hh2)) as Hfirst.
    destruct (result _); [|done]. by apply publish_keeps_last. }
  split.
  - destruct Hret as (c' & Hc' & Hv).
    rewrite (hub_lastEvent_present _ _ _ Hc').
    unfold observed, result, log, Channel.lastEvent; simpl. by rewrite Hv.
  - destruct (hub_publish_sets_last n v h Hu) as (c' & Hc' & Hv).
    fold h' in Hc'. rewrite (hub_lastEvent_present _ _ _ Hc').
    unfold observed, result, log, Channel.lastEvent; simpl. by rewrite Hv.
Qed.

Lemma wildcard_retains_value_published_anywhere_witness :
  let boom := mkCallback 1 (fun _ => Thrown (JsString "boom")) in
  let h := hub_run [HSubscribe WildCardChannel boom false;
                    HPublish "orders" (JsNumber 42)] EventHub.new in
  observed (EventHub.lastEvent WildCardChannel
              (state (EventHub.publish "users" (JsString "x") h))) =
    (Normal (JsString "x"), []).
Proof.
  intros boom h.
  apply (wildcard_retains_value_published_anywhere
           [HSubscribe WildCardChannel boom false;
            HPublish "orders" (JsNumber 42)] "users" (JsString "x"));
    reflexivity.
Defined.
Lemma hub_channels_inv_insert h n c :
  hub_channels_inv h -> channel_inv c ->
  hub_channels_inv (EventHub.mk (<[n := c]> (EventHub._channels h))).
Proof.
  intros Hh Hc n' c'. simpl. rewrite lookup_insert. case_decide.
  - by intros [= <-].
  - apply Hh.
Qed.

Lemma channel_of_inv n h : hub_channels_inv h -> channel_inv (channel_of n h).
Proof.
  intros Hh. unfold channel_of.
  destruct (EventHub._channels h !! n) as [c|] eqn:E; simpl.
  - by apply (Hh n).
  - apply channel_inv_new.
Qed.

Lemma hub_channels_inv_ensure n :
  preserves hub_channels_inv (EventHub.ensure n).
Proof.
  intros h Hh. destruct (usable_dec n h) as [Hu|[Hi E]].
  - rewrite ensure_spec by done. unfold state; simpl.
    by apply hub_channels_inv_insert, channel_of_inv.
  - by rewrite ensure_unusable.
Qed.

Lemma hub_channels_inv_on_channel {A} n (f : Eff Channel.t A) :
  (forall c, channel_inv c -> channel_inv (state (f c))) ->
  preserves hub_channels_inv (EventHub.on_channel n f).
Proof.
  intros Hf h Hh. unfold EventHub.on_channel.
  destruct (EventHub._channels h !! n) as [c|] eqn:E; [|done].
  specialize (Hf c (Hh n c E)). destruct (f c) as [[r c'] l].
  by apply hub_channels_inv_insert.
Qed.

Lemma publish_keeps_channel_inv v c :
  channel_inv c -> channel_inv (state (Channel.publish v c)).
Proof. apply (channel_inv_step c (CPublish v)). Qed.

Lemma hub_channels_inv_step h op :
  hub_channels_inv h -> hub_channels_inv (hub_step h op).
Proof.
  destruct op as [n cb replay|s|n v|n]; simpl.
  - apply (preserves_bind hub_channels_inv);
      [apply hub_channels_inv_ensure|].
    intros _. apply hub_channels_inv_on_channel. intros c.
    apply (channel_inv_step c (CSubscribe cb replay)).
  - intros Hh. unfold EventHub.unsubscribe, modify, state; simpl.
    destruct (EventHub._channels h !! sub_this s) as [c|] eqn:E; [|done].
    apply hub_channels_inv_insert; [done|].
    apply (channel_inv_step c (CUnsubscribe s)), (Hh _ _ E).
  - intros Hh. unfold EventHub.publish.
    apply (preserves_bind hub_channels_inv); [| |done].
    + apply hub_channels_inv_ensure.
    + intros _. repeat (apply preserves_bind; [|intros _]);
        apply hub_channels_inv_on_channel, publish_keeps_channel_inv.
  - intros Hh. rewrite lastEvent_state. by apply hub_channels_inv_ensure.
Qed.

Lemma hub_run_channels_inv ops : hub_channels_inv (hub_run ops EventHub.new).
Proof.
  induction ops as [|op ops IH] using rev_ind.
  - intros n c Hc. simpl in Hc.
    apply lookup_singleton_Some in Hc as [<- <-]. apply channel_inv_new.
  - rewrite hub_run_snoc. by apply hub_channels_inv_step.
Qed.

(** X11.  After any hub history: the wildcard channel exists and is named
    ["*"]; every channel is stored under its own name; and in every
    channel the subscriber keys are pairwise distinct and lie between 1
    and that channel's counter. *)
Theorem reachable_hub_invariant ops :
  let h := hub_run ops EventHub.new in
  (exists cw, EventHub.channels h !! WildCardChannel = Some cw /\
              Channel.name cw = WildCardChannel) /\
  (forall n c, EventHub.channels h !! n = Some c ->
     Channel.name c = n /\
     NoDup (Object_keys (Channel.callbacks c)) /\
     Forall (fun k => 1 <= k <= Channel._lastId c)
            (Object_keys (Channel.callbacks c))).
Proof.
  intros h. destruct (hub_run_inv ops) as [[cw Hw] Hn]. fold h in Hw, Hn.
  split.
  - exists cw. split; [done|]. by apply Hn.
  - intros n c Hc. split; [by apply Hn|].
    destruct (hub_run_channels_inv ops n c Hc) as [Hs Hb].
    split; [by apply StronglySorted_lt_NoDup | done].
Qed.

Lemma reachable_hub_invariant_witness :
  let quiet := mkCallback 1 (fun _ => Normal tt) in
  let ops := [HSubscribe "test" quiet false; HPublish "another" JsNull;
              HSubscribe "test" quiet true] in
  let c := subscribed quiet (subscribed quiet (Channel.new "test")) in
  Channel.name c = "test" /\
  NoDup (Object_keys (Channel.callbacks c)) /\
  Forall (fun k => 1 <= k <= Channel._lastId c)
         (Object_keys (Channel.callbacks c)).
Proof.
  intros quiet ops c.
  apply (proj2 (reachable_hub_invariant ops) "test" c).
  reflexivity.
Defined.
Lemma channel_of_insert_eq n c (chs : gmap string Channel.t) :
  channel_of n (EventHub.mk (<[n := c]> chs)) = c.
Proof. unfold channel_of. simpl. by rewrite lookup_insert_eq. Qed.

Lemma channel_of_insert_ne n m c (chs : gmap string Channel.t) :
  m <> n ->
  channel_of m (EventHub.mk (<[n := c]> chs)) = channel_of m (EventHub.mk chs).
Proof. intros Hne. unfold channel_of. simpl. by rewrite lookup_insert_ne. Qed.

Lemma channel_of_eta m h :
  channel_of m (EventHub.mk (EventHub._channels h)) = channel_of m h.
Proof. done. Qed.

Lemma channel_of_lookup m h h' :
  EventHub._channels h' !! m = EventHub._channels h !! m ->
  channel_of m h' = channel_of m h.
Proof. unfold channel_of. by intros ->. Qed.

(** A publish on any channel leaves every counter as it is. *)
Lemma on_channel_publish_lastId n m v :
  forall k,
  preserves (fun h => Channel._lastId (channel_of m h) = k)
    (EventHub.on_channel n (Channel.publish v)).
Proof.
  intros k h Hk. unfold EventHub.on_channel.
  destruct (EventHub._channels h !! n) as [c|] eqn:E; [|done].
  rewrite publish_spec. unfold state; simpl.
  destruct (decide (m = n)) as [->|Hne].
  - rewrite channel_of_insert_eq. simpl.
    unfold channel_of in Hk. by rewrite E in Hk.
  - by rewrite channel_of_insert_ne, channel_of_eta.
Qed.

Lemma ensure_lastId n m h :
  Channel._lastId (channel_of m (state (EventHub.ensure n h))) =
    Channel._lastId (channel_of m h).
Proof.
  destruct (usable_dec n h) as [Hu|[Hi E]]; [|by rewrite ensure_unusable].
  rewrite ensure_spec by done. unfold state; simpl.
  destruct (decide (m = n)) as [->|Hne].
  - by rewrite channel_of_insert_eq.
  - by rewrite channel_of_insert_ne, channel_of_eta.
Qed.

Lemma hub_step_lastId m h op :
  inherited m = false ->
  Channel._lastId (channel_of m (hub_step h op)) =
    Channel._lastId (channel_of m h) + (if subscribes_to m op then 1 else 0).
Proof.
  intros Hown. destruct op as [n cb replay|s|n v|n]; simpl.
  - unfold EventHub.subscribe. case_bool_decide as Hnm.
    + subst m. unfold channel_of at 1.
      rewrite routed_state by (by left). rewrite subscribe_state.
      rewrite lookup_insert_eq. simpl. lia.
    + rewrite Nat.add_0_r. f_equal. apply channel_of_lookup.
      rewrite bind_ensure_state.
      rewrite on_channel_other by done. by apply ensure_other.
  - unfold EventHub.unsubscribe, modify, state; simpl.
    destruct (EventHub._channels h !! sub_this s) as [c|] eqn:E;
      [|lia].
    destruct (decide (m = sub_this s)) as [->|Hne].
    + rewrite channel_of_insert_eq. simpl. unfold channel_of.
      rewrite E. simpl. lia.
    + rewrite channel_of_insert_ne, channel_of_eta by done. lia.
  - rewrite Nat.add_0_r. unfold EventHub.publish.
    apply (preserves_bind
             (fun h0 => Channel._lastId (channel_of m h0) =
                        Channel._lastId (channel_of m h))); [| |done].
    + intros h0 Hh0. by rewrite ensure_lastId.
    + intros _. repeat (apply preserves_bind; [|intros _]);
        apply on_channel_publish_lastId.
  - rewrite Nat.add_0_r. by rewrite lastEvent_state, ensure_lastId.
Qed.

Lemma hub_run_lastId m ops :
  inherited m = false ->
  Channel._lastId (channel_of m (hub_run ops EventHub.new)) =
    subscribes_on m ops.
Proof.
  intros Hown. unfold subscribes_on.
  induction ops as [|op ops IH] using rev_ind.
  - unfold channel_of. simpl.
    destruct (decide (m = WildCardChannel)) as [->|Hne].
    + by rewrite lookup_singleton_eq.
    + by rewrite lookup_singleton_ne.
  - rewrite hub_run_snoc, hub_step_lastId, IH, filter_app, length_app by done.
    f_equal. rewrite filter_cons, filter_nil.
    by destruct (subscribes_to m op).
Qed.

(** A hub reached by a history has no entry under an inherited name. *)
Lemma hub_own_names_step h op : hub_own_names h -> hub_own_names (hub_step h op).
Proof.
  intros Hh m Hm. specialize (Hh m Hm).
  assert (Hens : forall n, EventHub._channels (state (EventHub.ensure n h)) !! m
                           = None).
  { intros n. destruct (decide (m = n)) as [->|Hne].
    - by rewrite ensure_unusable.
    - by rewrite ensure_other. }
  assert (Hon : forall {A} k (f : Eff Channel.t A) h0,
            EventHub._channels h0 !! m = None ->
            EventHub._channels (state (EventHub.on_channel k f h0)) !! m
              = None).
  { intros A k f h0 E0. destruct (decide (m = k)) as [->|Hne].
    - unfold EventHub.on_channel. by rewrite E0.
    - by rewrite on_channel_other. }
  destruct op as [n cb replay|s|n v|n]; simpl.
  - unfold EventHub.subscribe. rewrite bind_ensure_state. by apply Hon.
  - unfold EventHub.unsubscribe, modify, state; simpl.
    destruct (EventHub._channels h !! sub_this s) as [c|] eqn:E; [|done].
    simpl. rewrite lookup_insert_ne; [done|]. intros <-. congruence.
  - unfold EventHub.publish. rewrite bind_ensure_state.
    repeat (rewrite bind_state; destruct (result _)); auto.
  - by rewrite lastEvent_state.
Qed.

Lemma hub_run_own_names ops : hub_own_names (hub_run ops EventHub.new).
Proof.
  induction ops as [|op ops IH] using rev_ind.
  - intros n Hn. simpl. apply lookup_singleton_ne. by intros <-.
  - rewrite hub_run_snoc. by apply hub_own_names_step.
Qed.

Lemma reachable_usable ops n :
  usable n (hub_run ops EventHub.new) -> inherited n = false.
Proof.
  intros [Hf|[c Hc]]; [done|].
  destruct (inherited n) eqn:Hi; [|done].
  pose proof (hub_run_own_names ops n Hi). congruence.
Qed.

Lemma inv_keys_below c :
  channel_inv c -> S (Channel._lastId c) ∉ Object_keys (Channel._callbacks c).
Proof.
  intros [_ Hb] Hin. rewrite Forall_forall in Hb.
  specialize (Hb _ Hin). lia.
Qed.

(** X12.  Identifiers are counted per channel, not per hub: after any hub
    history, a subscribe on a channel name [n] that is not a property
    every object inherits stores its callback under one more than the
    number of earlier subscribe calls naming [n] (1 for a name never
    subscribed to, also when a publish or a lastEvent created the
    channel), and without replay returns the handle with that identifier. *)
Theorem hub_identifiers_are_per_channel ops n cb replay :
  let h := hub_run ops EventHub.new in
  let k := S (subscribes_on n ops) in
  let h' := state (EventHub.subscribe n cb replay h) in
  inherited n = false ->
  result (EventHub.subscribe n cb false h) = Normal (mkSubscription n k) /\
  cl_get k (Channel.callbacks (channel_of n h')) = Some cb /\
  Channel._lastId (channel_of n h') = k.
Proof.
  intros h k h' Hown.
  assert (Hu : usable n h) by by left.
  pose proof (hub_run_inv ops) as Hh. fold h in Hh.
  pose proof (channel_of_inv n h (hub_run_channels_inv ops)) as Hc.
  pose proof (hub_run_lastId n ops Hown) as Hid. fold h in Hid.
  assert (Hh' : channel_of n h' = subscribed cb (channel_of n h)).
  { unfold h', EventHub.subscribe, channel_of at 1.
    rewrite routed_state by done.
    by rewrite lookup_insert_eq, subscribe_state. }
  split_and!.
  - assert (Hres : result (EventHub.subscribe n cb false h) =
                   (observed (EventHub.subscribe n cb false h)).1) by done.
    rewrite Hres. unfold EventHub.subscribe. rewrite routed_observed by done.
    rewrite subscribe_spec. simpl. unfold k.
    by rewrite (channel_of_name n h Hh), Hid.
  - rewrite Hh'. unfold Channel.callbacks, k.
    rewrite subscribed_callbacks by done. rewrite <- Hid.
    by apply cl_get_snoc_eq, inv_keys_below.
  - rewrite Hh'. simpl. unfold k. by rewrite Hid.
Qed.

Lemma hub_identifiers_are_per_channel_witness :
  let quiet (k : nat) := mkCallback k (fun _ => Normal tt) in
  let ops := [HSubscribe "a" (quiet 1) false; HSubscribe "a" (quiet 2) false;
              HPublish "b" (JsNumber 1)] in
  result (EventHub.subscribe "b" (quiet 3) false (hub_run ops EventHub.new)) =
    Normal (mkSubscription "b" 1) /\
  result (EventHub.subscribe "a" (quiet 3) false (hub_run ops EventHub.new)) =
    Normal (mkSubscription "a" 3).
Proof.
  intros quiet ops. split.
  - apply (hub_identifiers_are_per_channel ops "b" (quiet 3) false).
    reflexivity.
  - apply (hub_identifiers_are_per_channel ops "a" (quiet 3) false).
    reflexivity.
Defined.

(** X13.  On a hub reached by any history, a subscriber that arrives on
    channel [n], a name that is not a property every object inherits, with
    [replay] after a publish of a truthy value on [n] is called once
    during the subscribe, with that value under the name [n]; this holds
    also when the publish itself ended with a subscriber's throw. *)
Theorem late_subscriber_gets_last_value ops n v cb :
  let h := hub_run ops EventHub.new in
  let h' := state (EventHub.publish n v h) in
  inherited n = false ->
  truthy v = true ->
  log (EventHub.subscribe n cb true h') =
    [mkInvocation (cb_ref cb) (mkEventMessage n v)].
Proof.
  intros h h' Hown Htruthy.
  assert (Hu : usable n h) by by left.
  assert (Hu' : usable n h') by by left.
  pose proof (hub_inv_step h (HPublish n v) (hub_run_inv ops)) as Hh'.
  simpl in Hh'. fold h' in Hh'.
  destruct (hub_publish_sets_last n v h Hu) as (c' & Hc' & Hv).
  fold h' in Hc'.
  assert (Hlog : log (EventHub.subscribe n cb true h') =
                 (observed (EventHub.subscribe n cb true h')).2) by done.
  rewrite Hlog. unfold EventHub.subscribe. rewrite routed_observed by done.
  unfold observed; simpl. rewrite replay_log.
  assert (Hc : channel_of n h' = c') by (unfold channel_of; by rewrite Hc').
  rewrite Hc. unfold Channel.lastEvent, envelope.
  rewrite Hv, Htruthy. simpl.
  destruct Hh' as [_ Hn]. by rewrite (Hn _ _ Hc').
Qed.

Lemma late_subscriber_gets_last_value_witness :
  let boom := mkCallback 1 (fun _ => Thrown (JsString "boom")) in
  let late := mkCallback 2 (fun _ => Normal tt) in
  let h := hub_run [HSubscribe "orders" boom false] EventHub.new in
  log (EventHub.subscribe "orders" late true
         (state (EventHub.publish "orders" (JsNumber 42) h))) =
    [mkInvocation 2 (mkEventMessage "orders" (JsNumber 42))].
Proof.
  intros boom late h.
  apply (late_subscriber_gets_last_value
           [HSubscribe "orders" boom false] "orders" (JsNumber 42) late);
    reflexivity.
Defined.

(** X14.  On a hub reached by any history, the handle a hub subscribe
    returns belongs to the channel subscribed to: running its
    [unsubscribe] through the hub gives that channel its subscribers back
    as they were before the subscribe and leaves every other channel as it
    was, subscribers with the same identifier included. *)
Theorem hub_handle_unsubscribes_its_own_channel ops n cb replay
    (s : Subscription) :
  let h := hub_run ops EventHub.new in
  let h1 := state (EventHub.subscribe n cb replay h) in
  let h2 := state (EventHub.unsubscribe s h1) in
  result (EventHub.subscribe n cb replay h) = Normal s ->
  s = mkSubscription n (S (subscribes_on n ops)) /\
  Channel.callbacks (channel_of n h2) = Channel.callbacks (channel_of n h) /\
  (forall m, m <> n ->
     EventHub.channels h2 !! m = EventHub.channels h !! m).
Proof.
  intros h h1 h2 Hres.
  pose proof (hub_run_inv ops) as Hh. fold h in Hh.
  pose proof (channel_of_inv n h (hub_run_channels_inv ops)) as Hc.
  assert (Hu : usable n h).
  { destruct (usable_dec n h) as [Hu|[Hi E]]; [done|].
    unfold EventHub.subscribe in Hres.
    by rewrite (routed_unusable n _ h Hi E) in Hres. }
  pose proof (hub_run_lastId n ops (reachable_usable ops n Hu)) as Hid.
  fold h in Hid.
  assert (Hobs : result (EventHub.subscribe n cb replay h) =
                 (observed (EventHub.subscribe n cb replay h)).1) by done.
  rewrite Hobs in Hres. unfold EventHub.subscribe in Hres.
  rewrite routed_observed in Hres by done. simpl in Hres.
  apply subscribe_handle in Hres.
  rewrite (channel_of_name n h Hh), Hid in Hres. split; [done|].
  subst h2. subst s.
  set (s := mkSubscription n (S (subscribes_on n ops))).
  set (h2 := state (EventHub.unsubscribe s h1)).
  assert (Hh1 : EventHub._channels h1 =
                <[n := subscribed cb (channel_of n h)]> (EventHub._channels h)).
  { unfold h1, EventHub.subscribe.
    rewrite routed_state by done. by rewrite subscribe_state. }
  assert (Hh2 : EventHub._channels h2 =
    <[n := state (Channel.unsubscribe s (subscribed cb (channel_of n h)))]>
      (EventHub._channels h)).
  { unfold h2, EventHub.unsubscribe, modify. unfold state at 1.
    cbn [fst snd sub_this s].
    rewrite Hh1, lookup_insert_eq. cbn [EventHub._channels].
    by rewrite insert_insert_eq. }
  unfold EventHub.channels, Channel.callbacks. split.
  - unfold channel_of at 1. rewrite Hh2, lookup_insert_eq.
    change (default ?d (Some ?x)) with x.
    rewrite unsubscribe_callbacks. unfold s. cbn [id]. rewrite <- Hid.
    rewrite subscribed_callbacks by done.
    by apply cl_delete_snoc, inv_keys_below.
  - intros m Hm. by rewrite Hh2, lookup_insert_ne.
Qed.

Lemma hub_handle_unsubscribes_its_own_channel_witness :
  let quiet (k : nat) := mkCallback k (fun _ => Normal tt) in
  let ops := [HSubscribe "a" (quiet 1) false;
              HSubscribe "b" (quiet 2) false] in
  let h := hub_run ops EventHub.new in
  let h2 := state (EventHub.unsubscribe (mkSubscription "a" 2)
                     (state (EventHub.subscribe "a" (quiet 3) false h))) in
  Channel.callbacks (channel_of "a" h2) = Channel.callbacks (channel_of "a" h) /\
  EventHub.channels h2 !! "b" = EventHub.channels h !! "b".
Proof.
  intros quiet ops h h2.
  destruct (hub_handle_unsubscribes_its_own_channel ops "a" (quiet 3) false
              (mkSubscription "a" 2)) as (_ & Hsame & Hothers);
    [reflexivity|].
  split; [exact Hsame | by apply Hothers].
Defined.
End HubChannels.

(** ** The earlier revision of the hub *)

Section LegacyHub.
Implicit Types (h : Legacy.EventHub.t) (n m : string) (v : JsValue)
  (cbs : list Legacy.EventCallback) (ops : list Legacy.HubOp).

Lemma legacy_usable_dec n h :
  Legacy.usable n h \/
  (inherited n = true /\ Legacy.EventHub._channels h !! n = None).
Proof.
  unfold Legacy.usable. destruct (inherited n); [|by left; left].
  destruct (Legacy.EventHub._channels h !! n) as [c|];
    [left; right; by eexists|].
  by right.
Qed.

Lemma legacy_ensure_lookup n h :
  Legacy.usable n h ->
  Legacy.EventHub._channels (Legacy.EventHub.ensure n h) !! n =
    Some (Legacy.channel_of n h).
Proof.
  intros Hu. unfold Legacy.EventHub.ensure, Legacy.channel_of.
  destruct (Legacy.EventHub._channels h !! n) as [c|] eqn:E; simpl; [done|].
  destruct Hu as [->|[c Hc]]; [|congruence]. simpl.
  by rewrite lookup_insert_eq.
Qed.

Lemma legacy_ensure_unusable n h :
  inherited n = true -> Legacy.EventHub._channels h !! n = None ->
  Legacy.EventHub.ensure n h = h.
Proof. intros Hi E. unfold Legacy.EventHub.ensure. by rewrite E, Hi. Qed.

Lemma legacy_ensure_other n m h :
  m <> n ->
  Legacy.EventHub._channels (Legacy.EventHub.ensure n h) !! m =
    Legacy.EventHub._channels h !! m.
Proof.
  intros Hne. unfold Legacy.EventHub.ensure.
  destruct (Legacy.EventHub._channels h !! n); simpl; [done|].
  destruct (inherited n); simpl; [done|].
  by rewrite lookup_insert_ne.
Qed.

Lemma legacy_ensure_dom n h :
  dom (Legacy.EventHub._channels (Legacy.EventHub.ensure n h)) =
    dom (Legacy.EventHub._channels h) ∪ (if inherited n then ∅ else {[n]}).
Proof.
  unfold Legacy.EventHub.ensure.
  destruct (Legacy.EventHub._channels h !! n) as [c|] eqn:E.
  - apply elem_of_dom_2 in E. destruct (inherited n).
    + by rewrite (right_id_L ∅ (∪)).
    + symmetry. rewrite (comm_L (∪)).
      by apply subseteq_union_1_L, singleton_subseteq_l.
  - destruct (inherited n); simpl.
    + by rewrite (right_id_L ∅ (∪)).
    + rewrite dom_insert_L. apply (comm_L (∪)).
Qed.

Lemma legacy_on_channel_dom {A} n
    (f : Legacy.Channel.t ->
         Completion A * Legacy.Channel.t * list Legacy.Invocation) h :
  dom (Legacy.EventHub._channels
         (Legacy.state (Legacy.EventHub.on_channel n f h))) =
    dom (Legacy.EventHub._channels h).
Proof.
  unfold Legacy.EventHub.on_channel.
  destruct (Legacy.EventHub._channels h !! n) as [c|] eqn:E; [|done].
  destruct (f c) as [[r c'] l]. unfold Legacy.state; simpl.
  apply elem_of_dom_2 in E. rewrite dom_insert_L.
  by apply subseteq_union_1_L, singleton_subseteq_l.
Qed.

Lemma legacy_on_channel_other {A} n m
    (f : Legacy.Channel.t ->
         Completion A * Legacy.Channel.t * list Legacy.Invocation) h :
  m <> n ->
  Legacy.EventHub._channels
    (Legacy.state (Legacy.EventHub.on_channel n f h)) !! m =
    Legacy.EventHub._channels h !! m.
Proof.
  intros Hne. unfold Legacy.EventHub.on_channel.
  destruct (Legacy.EventHub._channels h !! n) as [c|]; [|done].
  destruct (f c) as [[r c'] l]. unfold Legacy.state; simpl.
  by rewrite lookup_insert_ne.
Qed.

(** A call routed to the channel [n]. *)
Lemma legacy_routed {A} n
    (f : Legacy.Channel.t ->
         Completion A * Legacy.Channel.t * list Legacy.Invocation) h :
  Legacy.usable n h ->
  Legacy.EventHub.on_channel n f (Legacy.EventHub.ensure n h) =
    match f (Legacy.channel_of n h) with
    | (r, c', l) =>
        (r, Legacy.EventHub.mk
              (<[n := c']> (Legacy.EventHub._channels
                              (Legacy.EventHub.ensure n h))), l)
    end.
Proof.
  intros Hu. unfold Legacy.EventHub.on_channel.
  by rewrite legacy_ensure_lookup.
Qed.

Lemma legacy_routed_unusable {A} n
    (f : Legacy.Channel.t ->
         Completion A * Legacy.Channel.t * list Legacy.Invocation) h :
  inherited n = true -> Legacy.EventHub._channels h !! n = None ->
  Legacy.EventHub.on_channel n f (Legacy.EventHub.ensure n h) =
    (Thrown TypeError, h, []).
Proof.
  intros Hi E. rewrite legacy_ensure_unusable by done.
  unfold Legacy.EventHub.on_channel. by rewrite E.
Qed.

Lemma legacy_lastEvent_state n h :
  Legacy.state (Legacy.EventHub.lastEvent n h) = Legacy.EventHub.ensure n h.
Proof.
  unfold Legacy.EventHub.lastEvent.
  destruct (Legacy.EventHub._channels _ !! n); [done|].
  by destruct (inherited n).
Qed.

Lemma legacy_hub_step_dom h (op : Legacy.HubOp) :
  dom (Legacy.EventHub._channels (Legacy.hub_step h op)) =
    dom (Legacy.EventHub._channels h) ∪ Legacy.names_created [op].
Proof.
  unfold Legacy.names_created.
  destruct op as [n cb replay|s|n v|n]; simpl.
  - unfold Legacy.EventHub.subscribe.
    rewrite legacy_on_channel_dom, legacy_ensure_dom.
    destruct (inherited n); simpl; [done|]. by rewrite (right_id_L ∅ (∪)).
  - rewrite (right_id_L ∅ (∪)). unfold Legacy.EventHub.unsubscribe.
    destruct (Legacy.EventHub._channels h !! sub_this s) as [c|] eqn:E;
      simpl; [|done].
    apply elem_of_dom_2 in E. rewrite dom_insert_L.
    by apply subseteq_union_1_L, singleton_subseteq_l.
  - unfold Legacy.EventHub.publish.
    rewrite legacy_on_channel_dom, legacy_ensure_dom.
    destruct (inherited n); simpl; [done|]. by rewrite (right_id_L ∅ (∪)).
  - rewrite legacy_lastEvent_state, legacy_ensure_dom.
    destruct (inherited n); simpl; [done|]. by rewrite (right_id_L ∅ (∪)).
Qed.

(** X15.  In the earlier revision a new hub has no channel at all, and
    after any history its channels are exactly the names that were
    subscribed to, published on or read and are not properties every
    object inherits: there is no wildcard channel unless ["*"] is itself
    used as a name, and an unsubscribe removes no channel. *)
Theorem legacy_hub_channels_are_names_created ops :
  size (Legacy.EventHub.channels Legacy.EventHub.new) = 0 /\
  dom (Legacy.EventHub.channels (Legacy.hub_run ops Legacy.EventHub.new)) =
    Legacy.names_created ops.
Proof.
  unfold Legacy.EventHub.channels. split; [done|].
  induction ops as [|op ops IH] using rev_ind.
  - unfold Legacy.names_created. simpl. apply dom_empty_L.
  - unfold Legacy.hub_run in *. rewrite foldl_snoc, legacy_hub_step_dom, IH.
    unfold Legacy.names_created. by rewrite omap_app, list_to_set_app_L.
Qed.

Lemma legacy_forEach_returns cbs v :
  Forall (fun cb => Legacy.cb_run cb v = Normal tt) cbs ->
  Legacy.forEach cbs v =
    (Normal tt, map (fun cb => Legacy.mkInvocation (Legacy.cb_ref cb) v) cbs).
Proof.
  induction 1 as [|cb cbs Hcb Hall IH]; simpl; [done|].
  by rewrite Hcb, IH.
Qed.

Lemma legacy_forEach_calls cbs v (i : Legacy.Invocation) :
  i ∈ (Legacy.forEach cbs v).2 ->
  exists cb, cb ∈ cbs /\ i = Legacy.mkInvocation (Legacy.cb_ref cb) v.
Proof.
  induction cbs as [|cb cbs IH]; simpl.
  - by intros ?%not_elem_of_nil.
  - destruct (Legacy.cb_run cb v) as [[]|e].
    + destruct (Legacy.forEach cbs v) as [r l]. simpl in *.
      intros [->|Hin]%elem_of_cons.
      * exists cb. split; [left|done].
      * destruct (IH Hin) as (cb' & Hcb' & ->).
        exists cb'. split; [by right|done].
    + simpl. intros ->%list_elem_of_singleton.
      exists cb. split; [left|done].
Qed.

(** X16.  In the earlier revision a hub publish on [n] reaches the
    channel [n] and nothing else.  It calls subscribers of [n] only, each
    with the published value itself, and every other channel, a channel
    named ["*"] included, is as it was.  When [n] is a name under which
    the hub has a channel or can create one (any name that is not a
    property every object inherits), then the channel [n] retains the
    value, and if its subscribers all return the publish ends normally
    having called every one of them, in key order. *)
Theorem legacy_publish_reaches_named_channel_only h n v :
  let r := Legacy.EventHub.publish n v h in
  let cn := Legacy.channel_of n h in
  let subscribers := (Legacy.Channel.callbacks cn).*2 in
  (forall i, i ∈ Legacy.log r ->
     exists cb, cb ∈ subscribers /\
                i = Legacy.mkInvocation (Legacy.cb_ref cb) v) /\
  (forall m, m <> n ->
     Legacy.EventHub.channels (Legacy.state r) !! m =
       Legacy.EventHub.channels h !! m) /\
  (Legacy.usable n h ->
   Legacy.EventHub.channels (Legacy.state r) !! n =
     Some (Legacy.Channel.mk (Legacy.Channel._name cn) v
             (Legacy.Channel._lastId cn) (Legacy.Channel._callbacks cn)) /\
   (Forall (fun cb => Legacy.cb_run cb v = Normal tt) subscribers ->
    Legacy.result r = Normal tt /\
    Legacy.log r =
      map (fun cb => Legacy.mkInvocation (Legacy.cb_ref cb) v) subscribers)).
Proof.
  intros r cn subscribers. unfold Legacy.EventHub.channels.
  assert (Hr : Legacy.usable n h -> r =
    (let '(res, l) := Legacy.forEach subscribers v in
     (res,
      Legacy.EventHub.mk
        (<[n := Legacy.Channel.mk (Legacy.Channel._name cn) v
                  (Legacy.Channel._lastId cn) (Legacy.Channel._callbacks cn)]>
           (Legacy.EventHub._channels (Legacy.EventHub.ensure n h))), l))).
  { intros Hu. unfold r, Legacy.EventHub.publish.
    rewrite legacy_routed by done.
    unfold Legacy.Channel.publish. simpl. fold cn.
    unfold subscribers, Legacy.Channel.callbacks.
    by destruct (Legacy.forEach _ v). }
  split_and!.
  - intros i Hi. destruct (legacy_usable_dec n h) as [Hu|[Hinh E]].
    + apply legacy_forEach_calls. rewrite (Hr Hu) in Hi.
      by destruct (Legacy.forEach subscribers v).
    + unfold r, Legacy.EventHub.publish in Hi.
      rewrite legacy_routed_unusable in Hi by done.
      by apply not_elem_of_nil in Hi.
  - intros m Hm. unfold r, Legacy.EventHub.publish.
    by rewrite legacy_on_channel_other, legacy_ensure_other.
  - intros Hu. split.
    + rewrite (Hr Hu). destruct (Legacy.forEach subscribers v).
      unfold Legacy.state; simpl. by rewrite lookup_insert_eq.
    + intros Hall. rewrite (Hr Hu), (legacy_forEach_returns _ _ Hall). done.
Qed.

Lemma legacy_publish_reaches_named_channel_only_witness :
  let quiet (k : nat) := Legacy.mkCallback k (fun _ => Normal tt) in
  let h := Legacy.hub_run [Legacy.HSubscribe "*" (quiet 1) false;
                           Legacy.HSubscribe "orders" (quiet 2) false]
             Legacy.EventHub.new in
  Legacy.log (Legacy.EventHub.publish "orders" (JsNumber 42) h) =
    [Legacy.mkInvocation 2 (JsNumber 42)] /\
  Legacy.EventHub.channels
    (Legacy.state (Legacy.EventHub.publish "orders" (JsNumber 42) h)) !! "*" =
    Legacy.EventHub.channels h !! "*".
Proof.
  intros quiet h.
  destruct (legacy_publish_reaches_named_channel_only h "orders" (JsNumber 42))
    as (_ & Hothers & Husable).
  destruct Husable as [_ Hall]; [by left|].
  split.
  - apply Hall. repeat constructor.
  - by apply Hothers.
Defined.
End LegacyHub.
